(** * Error aggregation (errors/aggregate.go) and string sets (errors/sets.go)

    A shallow embedding of the error-aggregation package of
    gzwillyy/components, and the properties its specification states. *)

From Stdlib Require Import Ascii.
From stdpp Require Import base option list sets gmap strings pretty sorting.

#[local] Set Warnings "-clear-no-such-hyp".

(** ** String sets (errors/sets.go)

    [type String map[string]Empty] is a Go map, hence a reference: nil, or
    the address of a table that lives in the heap and is shared by every
    copy of the reference.  Methods that write take the heap and return it;
    writing to a nil map panics ([None]).  Reading an address the heap does
    not hold reads an empty table. *)

Module Sets.

Definition String : Type := option positive.

Abbreviation heap := (gmap positive (gset string)).

Definition M (A : Type) : Type := heap → option (A * heap).

Definition contents (h : heap) (s : String) : gset string :=
  match s with
  | None => ∅
  | Some l => default ∅ (h !! l)
  end.

(** The assignment [s[item] = Empty{}]. *)
Definition assign (s : String) (item : string) : M unit := fun h =>
  match s with
  | None => None
  | Some l => Some (tt, <[l := {[item]} ∪ contents h s]> h)
  end.

Fixpoint Insert (s : String) (items : list string) : M String := fun h =>
  match items with
  | [] => Some (s, h)
  | item :: items =>
      match assign s item h with
      | None => None
      | Some (_, h) => Insert s items h
      end
  end.

(** The literal [String{}] allocates a table at an unused address. *)
Definition NewString (items : list string) : M String := fun h =>
  let l := fresh (dom h) in
  Insert (Some l) items (<[l := ∅]> h).

Definition Has (s : String) (item : string) (h : heap) : bool :=
  bool_decide (item ∈ contents h s).

Definition Len (s : String) (h : heap) : nat := size (contents h s).

(** [delete(s, item)]; deleting from a nil map does nothing. *)
Definition remove (s : String) (item : string) (h : heap) : heap :=
  match s with
  | None => h
  | Some l => <[l := contents h s ∖ {[item]}]> h
  end.

Fixpoint Delete (s : String) (items : list string) : M String := fun h =>
  match items with
  | [] => Some (s, h)
  | item :: items => Delete s items (remove s item h)
  end.

Fixpoint HasAll (s : String) (items : list string) (h : heap) : bool :=
  match items with
  | [] => true
  | item :: items => if negb (Has s item h) then false else HasAll s items h
  end.

Fixpoint HasAny (s : String) (items : list string) (h : heap) : bool :=
  match items with
  | [] => false
  | item :: items => if Has s item h then true else HasAny s items h
  end.

(** [lhs < rhs] on Go strings compares byte by byte. *)
Definition lessString (lhs rhs : string) : bool := String.ltb lhs rhs.

(** The order in which a for-range loop walks a map is not specified by
    Go: [rangeKeys] stands for it. *)
Section Range.
Variable rangeKeys : gset string → list string.

Definition Intersection (s s2 : String) : M String := fun h =>
  match NewString [] h with
  | None => None
  | Some (result, h) =>
      let '(walk, other) :=
        if bool_decide (Len s h < Len s2 h) then (s, s2) else (s2, s) in
      (fix range (keys : list string) (h : heap) {struct keys} :=
         match keys with
         | [] => Some (result, h)
         | key :: keys =>
             if Has other key h then
               match Insert result [key] h with
               | None => None
               | Some (_, h) => range keys h
               end
             else range keys h
         end) (rangeKeys (contents h walk)) h
  end.

Definition IsSuperset (s s2 : String) (h : heap) : bool :=
  (fix range (items : list string) {struct items} :=
     match items with
     | [] => true
     | item :: items => if negb (Has s item h) then false else range items
     end) (rangeKeys (contents h s2)).

Definition Equal (s s2 : String) (h : heap) : bool :=
  bool_decide (Len s h = Len s2 h) && IsSuperset s s2 h.

Definition Difference (s s2 : String) : M String := fun h =>
  match NewString [] h with
  | None => None
  | Some (result, h) =>
      (fix range (keys : list string) (h : heap) {struct keys} :=
         match keys with
         | [] => Some (result, h)
         | key :: keys =>
             if negb (Has s2 key h) then
               match Insert result [key] h with
               | None => None
               | Some (_, h) => range keys h
               end
             else range keys h
         end) (rangeKeys (contents h s)) h
  end.

(** A loop [for key := range s { result.Insert(key) }]. *)
Fixpoint insertEach (result : String) (keys : list string) : M unit := fun h =>
  match keys with
  | [] => Some (tt, h)
  | key :: keys =>
      match Insert result [key] h with
      | None => None
      | Some (_, h) => insertEach result keys h
      end
  end.

Definition Union (s s2 : String) : M String := fun h =>
  match NewString [] h with
  | None => None
  | Some (result, h) =>
      match insertEach result (rangeKeys (contents h s)) h with
      | None => None
      | Some (_, h) =>
          match insertEach result (rangeKeys (contents h s2)) h with
          | None => None
          | Some (_, h) => Some (result, h)
          end
      end
  end.

Definition UnsortedList (s : String) (h : heap) : list string :=
  foldl (fun res key => res ++ [key]) [] (rangeKeys (contents h s)).

(** [sort.Sort] belongs to the Go standard library: a parameter, which is
    given the [Less] of [sortableSliceOfString]. *)
Section Sort.
Variable sort_Sort : (string → string → bool) → list string → list string.

Definition List (s : String) (h : heap) : list string :=
  let res := foldl (fun res key => res ++ [key]) [] (rangeKeys (contents h s)) in
  sort_Sort lessString res.
End Sort.

Definition PopAny (s : String) : M (string * bool) := fun h =>
  match rangeKeys (contents h s) with
  | key :: _ =>
      match Delete s [key] h with
      | None => None
      | Some (_, h) => Some ((key, true), h)
      end
  | [] => Some (("", false), h)
  end.
End Range.

End Sets.

(** ** Error values

    A Go [error] is an interface value: either nil, or a value of some
    dynamic type.  Three kinds of dynamic type matter to aggregate.go:
    the package's private slice type [aggregate], any other type that
    implements the [Aggregate] interface, and every remaining ("plain")
    error.  A plain error and a foreign Aggregate carry an identity (the
    pointer compared by ==) and the text their Error method returns. *)

Inductive impl : Type :=
| aggregate                              (* type aggregate []error *)
| custom (id : nat) (msg : string).      (* another implementation of Aggregate *)

Unset Elimination Schemes.
Inductive error : Type :=
| ErrNil
| ErrPlain (id : nat) (msg : string)
| ErrAgg (k : impl) (errs : list error).
Set Elimination Schemes.

(** A value of interface type [Aggregate]: nil, or an implementation
    together with what its Errors method returns. *)
Inductive Aggregate : Type :=
| AggNil
| Agg (k : impl) (errs : list error).

(** Conversion of an [Aggregate] to [error]; a nil interface stays nil. *)
Definition asError (a : Aggregate) : error :=
  match a with
  | AggNil => ErrNil
  | Agg k errs => ErrAgg k errs
  end.

(** The type assertion [err.(Aggregate)]; not ok on nil and on plain errors. *)
Definition asAggregate (err : error) : option Aggregate :=
  match err with
  | ErrAgg k errs => Some (Agg k errs)
  | _ => None
  end.

Definition isNil (err : error) : bool :=
  match err with ErrNil => true | _ => false end.

(** [Errors()]; calling a method of a nil interface panics ([None]). *)
Definition Errors (a : Aggregate) : option (list error) :=
  match a with
  | AggNil => None
  | Agg _ errs => Some errs
  end.

(** ** NewAggregate *)

Definition NewAggregate (errlist : list error) : Aggregate :=
  if bool_decide (length errlist = 0) then AggNil
  else
    let errs := foldl (fun errs e => if isNil e then errs else errs ++ [e]) [] errlist in
    if bool_decide (length errs = 0) then AggNil
    else Agg aggregate errs.

(** ** visit

    [visit] threads the state captured by the callback ([S]); the callback
    may panic ([None]).  [visitErr] is the body of the range loop (the type
    switch on one element), [visit] the loop over the receiver. *)

Section Visit.
Context {S : Type} (f : error → S → option (bool * S)).

Fixpoint visitErr (err : error) (s : S) {struct err} : option (bool * S) :=
  match err with
  | ErrAgg aggregate agg =>
      (fix visit (agg : list error) (s : S) {struct agg} : option (bool * S) :=
         match agg with
         | [] => Some (false, s)
         | err :: rest =>
             match visitErr err s with
             | None => None
             | Some (true, s') => Some (true, s')
             | Some (false, s') => visit rest s'
             end
         end) agg s
  | ErrAgg (custom _ _) nested =>
      (fix each (nested : list error) (s : S) {struct nested} : option (bool * S) :=
         match nested with
         | [] => Some (false, s)
         | nestedErr :: rest =>
             match f nestedErr s with
             | None => None
             | Some (true, s') => Some (true, s')
             | Some (false, s') => each rest s'
             end
         end) nested s
  | _ => f err s
  end.

Fixpoint visit (agg : list error) (s : S) {struct agg} : option (bool * S) :=
  match agg with
  | [] => Some (false, s)
  | err :: rest =>
      match visitErr err s with
      | None => None
      | Some (true, s') => Some (true, s')
      | Some (false, s') => visit rest s'
      end
  end.
End Visit.

(** ** Error *)

Fixpoint Error (err : error) {struct err} : option string :=
  match err with
  | ErrNil => None
  | ErrPlain _ msg => Some msg
  | ErrAgg (custom _ msg) _ => Some msg
  | ErrAgg aggregate agg =>
      match agg with
      | [] => Some ""
      | [e] => Error e
      | _ =>
          match
            visit (fun err '(seenerrs, result) =>
                     match Error err with
                     | None => None
                     | Some msg =>
                         if bool_decide (msg ∈ (seenerrs : gset string)) then
                           Some (false, (seenerrs, result))
                         else
                           let seenerrs := {[msg]} ∪ seenerrs in
                           let result :=
                             if bool_decide (1 < size seenerrs) then result +:+ ", "
                             else result in
                           Some (false, (seenerrs, result +:+ msg))
                     end) agg (∅, "")
          with
          | None => None
          | Some (_, (seenerrs, result)) =>
              if bool_decide (size seenerrs = 1) then Some result
              else Some ("[" +:+ result +:+ "]")
          end
      end
  end.

(** ** Is

    [errors.Is] belongs to the Go standard library; the package only calls
    it, so it is a parameter here. *)

Section Is.
Variable errors_Is : error → error → bool.

Definition Is (agg : list error) (target : error) : option bool :=
  fst <$> visit (fun err (_ : unit) => Some (errors_Is err target, tt)) agg tt.
End Is.

(** ** FilterOut *)

Definition Matcher : Type := error → bool.

Fixpoint matchesError (err : error) (fns : list Matcher) : bool :=
  match fns with
  | [] => false
  | fn :: fns => if fn err then true else matchesError err fns
  end.

Fixpoint FilterOut (err : error) (fns : list Matcher) {struct err} : error :=
  match err with
  | ErrNil => ErrNil
  | ErrAgg _ errs =>
      asError (NewAggregate
        (foldl (fun result err =>
                  let r := FilterOut err fns in
                  if isNil r then result else result ++ [r]) [] errs))
  | _ => if negb (matchesError err fns) then err else ErrNil
  end.

Definition filterErrors (list : Datatypes.list error) (fns : Datatypes.list Matcher)
  : Datatypes.list error :=
  foldl (fun result err =>
           let r := FilterOut err fns in
           if isNil r then result else result ++ [r]) [] list.

(** ** Flatten

    [flattenErr] is the body of the loop of [Flatten]: what one element of
    [agg.Errors()] appends to [result]; the recursive call [Flatten(a)] on a
    nested Aggregate is unfolded in it (lemma [flattenErr_Flatten]). *)

Fixpoint flattenErr (result : list error) (err : error) {struct err} : list error :=
  match err with
  | ErrAgg _ errs =>
      match NewAggregate (foldl flattenErr [] errs) with
      | AggNil => result
      | Agg _ rerrs => result ++ rerrs
      end
  | ErrNil => result
  | _ => result ++ [err]
  end.

Definition Flatten (agg : Aggregate) : Aggregate :=
  match agg with
  | AggNil => AggNil
  | Agg _ errs => NewAggregate (foldl flattenErr [] errs)
  end.

(** ** CreateAggregateFromMessageCountMap

    A [MessageCountMap] is nil ([None]) or a map.  [fmt.Errorf] makes a new
    plain error; [next] is the first unused identity.  The order in which a
    for-range loop walks a map is not specified by Go: [rangeMap] stands
    for it. *)

Definition MessageCountMap : Type := option (gmap string Z).

Definition fmt_Errorf (id : nat) (msg : string) : error := ErrPlain id msg.

Section RangeMap.
Variable rangeMap : gmap string Z → list (string * Z).

Definition CreateAggregateFromMessageCountMap (next : nat) (m : MessageCountMap)
  : Aggregate :=
  match m with
  | None => AggNil
  | Some m =>
      NewAggregate
        (foldl (fun result '(errStr, count) =>
                  let countStr :=
                    if bool_decide (1 < count)%Z
                    then " (repeated " +:+ pretty count +:+ " times)"
                    else "" in
                  result ++ [fmt_Errorf (next + length result) (errStr +:+ countStr)])
               [] (rangeMap m))
  end.
End RangeMap.

(** ** Reduce *)

Definition Reduce (err : error) : error :=
  match asAggregate err with
  | Some (Agg _ errs) =>
      match errs with
      | [e] => e
      | [] => ErrNil
      | _ => err
      end
  | _ => err
  end.

(** ** AggregateGoroutines

    The function starts one goroutine per element of [funcs], each of which
    calls its function and sends what it returns on [errChan]; the caller
    then receives [cap(errChan)] values.  The goroutines and the caller
    advance in any interleaving, so the function is a transition system.  A
    function is taken to return, and is represented by the error it
    returns. *)

Inductive worker : Type :=
| Idle                    (* the go statement has not been reached *)
| Running                 (* started, its function has not returned *)
| Returned (e : error)    (* the function returned e, e is not yet sent *)
| Done (e : error).       (* e is sent, the goroutine has ended *)

Record goroutines : Type := Goroutines {
  workers : list worker;       (* one per function *)
  errChan : list error;        (* the buffer of the channel, oldest first *)
  launched : nat;              (* iterations done of the first loop *)
  received : nat;              (* the counter i of the second loop *)
  collected : list error;      (* the slice errs *)
  returned : option Aggregate  (* the value returned, once returned *)
}.

Section AggregateGoroutines.
Variable funcs : list error.

(** [make(chan error, len(funcs))] *)
Definition capacity : nat := length funcs.

Definition start : goroutines :=
  Goroutines (replicate (length funcs) Idle) [] 0 0 [] None.

Inductive step : goroutines → goroutines → Prop :=
| step_go ws ch l :
    (* go func(f func() error) { ... }(f) *)
    l < length funcs →
    step (Goroutines ws ch l 0 [] None)
         (Goroutines (<[l := Running]> ws) ch (S l) 0 [] None)
| step_call ws ch l i errs k e :
    (* f() *)
    ws !! k = Some Running → funcs !! k = Some e →
    step (Goroutines ws ch l i errs None)
         (Goroutines (<[k := Returned e]> ws) ch l i errs None)
| step_send ws ch l i errs k e :
    (* errChan <- f(): possible while the buffer is not full *)
    ws !! k = Some (Returned e) → length ch < capacity →
    step (Goroutines ws ch l i errs None)
         (Goroutines (<[k := Done e]> ws) (ch ++ [e]) l i errs None)
| step_receive ws ch i errs e :
    (* if err := <-errChan; err != nil { errs = append(errs, err) } *)
    i < capacity →
    step (Goroutines ws (e :: ch) (length funcs) i errs None)
         (Goroutines ws ch (length funcs) (S i)
            (if isNil e then errs else errs ++ [e]) None)
| step_return ws ch i errs :
    (* return NewAggregate(errs) *)
    ¬ i < capacity →
    step (Goroutines ws ch (length funcs) i errs None)
         (Goroutines ws ch (length funcs) i errs (Some (NewAggregate errs))).

(** [AggregateGoroutines(funcs...)] may return [agg]. *)
Definition AggregateGoroutines (agg : Aggregate) : Prop :=
  ∃ s, rtc step start s ∧ returned s = Some agg.
End AggregateGoroutines.

(** ** applyOptionRules (app/app.go)

    The options of an application implement [CliOptions], and may implement
    [CompleteableOptions] and [PrintableOptions]; a method is represented by
    what it returns, and a method the options do not have by [None].  The
    function returns an error and may hand one message to [log.Infof]. *)

Record CliOptions : Type := Options {
  Complete : option error;        (* Complete(), of CompleteableOptions *)
  Validate : list error;          (* Validate() *)
  String_ : option string         (* String(), of PrintableOptions *)
}.

Section ApplyOptionRules.
Variable progressMessage : string.

Definition applyOptionRules (options : CliOptions) (silence : bool)
  : error * list string :=
  match
    match Complete options with
    | Some err => if negb (isNil err) then Some err else None
    | None => None
    end
  with
  | Some err => (err, [])
  | None =>
      let errs := Validate options in
      if negb (bool_decide (length errs = 0)) then (asError (NewAggregate errs), [])
      else
        match String_ options with
        | Some text =>
            if negb silence
            then (ErrNil, [progressMessage +:+ " Config: `" +:+ text +:+ "`"])
            else (ErrNil, [])
        | None => (ErrNil, [])
        end
  end.
End ApplyOptionRules.

(** ** funcname (errors/stack.go) and WordSepNormalizeFunc (app/flag.go)

    A Go string is a sequence of bytes.  [strings.Index], [strings.LastIndex],
    [strings.Contains] and [strings.Replace] belong to the standard library;
    the package calls them with separators of one byte, and they are given
    here for such separators: the position of the first or last byte equal
    to the separator, -1 when there is none. *)

Fixpoint strings_Index (s : string) (sep : ascii) : Z :=
  match s with
  | EmptyString => (-1)%Z
  | String a s' =>
      if bool_decide (a = sep) then 0%Z
      else let i := strings_Index s' sep in
           if bool_decide (i < 0)%Z then (-1)%Z else (i + 1)%Z
  end.

Fixpoint strings_LastIndex (s : string) (sep : ascii) : Z :=
  match s with
  | EmptyString => (-1)%Z
  | String a s' =>
      let i := strings_LastIndex s' sep in
      if bool_decide (0 ≤ i)%Z then (i + 1)%Z
      else if bool_decide (a = sep) then 0%Z else (-1)%Z
  end.

(** The slice [s[n:]]. *)
Fixpoint sliceFrom (n : nat) (s : string) : string :=
  match n, s with
  | 0, _ => s
  | S n, String _ s' => sliceFrom n s'
  | S _, EmptyString => EmptyString
  end.

Definition funcname (name : string) : string :=
  let i := strings_LastIndex name "/"%char in
  let name := sliceFrom (Z.to_nat (i + 1)) name in
  let i := strings_Index name "."%char in
  sliceFrom (Z.to_nat (i + 1)) name.

Definition strings_Contains (s : string) (sep : ascii) : bool :=
  bool_decide (0 ≤ strings_Index s sep)%Z.

(** [strings.Replace(s, old, new, -1)] for [old] and [new] of one byte. *)
Fixpoint strings_ReplaceAll (s : string) (old new : ascii) : string :=
  match s with
  | EmptyString => EmptyString
  | String a s' =>
      String (if bool_decide (a = old) then new else a) (strings_ReplaceAll s' old new)
  end.

Definition WordSepNormalizeFunc (name : string) : string :=
  if strings_Contains name "_"%char then strings_ReplaceAll name "_"%char "-"%char
  else name.

(** * Specification-level notions *)

(** The non-nil entries of a list, in order. *)
Definition nonNil (errlist : list error) : list error :=
  filter (λ e, ¬ isNil e) errlist.

(** The errors a traversal of an aggregate hands to the callback, in
    order: what is not an Aggregate is handed over itself, the package's
    own aggregates are entered recursively, and of any other Aggregate the
    elements are handed over. *)
Fixpoint visitedErr (err : error) {struct err} : list error :=
  match err with
  | ErrAgg aggregate agg => flat_map visitedErr agg
  | ErrAgg (custom _ _) nested => nested
  | _ => [err]
  end.

Definition visited (agg : list error) : list error := flat_map visitedErr agg.

(** The same as a relation on the nested structure. *)
Inductive reaches : list error → error → Prop :=
| reaches_plain agg e :
    e ∈ agg → asAggregate e = None → reaches agg e
| reaches_aggregate agg nested e :
    ErrAgg aggregate nested ∈ agg → reaches nested e → reaches agg e
| reaches_custom agg id msg nested e :
    ErrAgg (custom id msg) nested ∈ agg → e ∈ nested → reaches agg e.

(** A callback run over a list of errors, stopping at the first match. *)
Fixpoint runOver {S : Type} (f : error → S → option (bool * S))
    (l : list error) (s : S) {struct l} : option (bool * S) :=
  match l with
  | [] => Some (false, s)
  | e :: l =>
      match f e s with
      | None => None
      | Some (true, s') => Some (true, s')
      | Some (false, s') => runOver f l s'
      end
  end.

(** What [Error] does with each visited error: the callback of its
    traversal, on the pair of the captured variables [seenerrs] and
    [result]. *)
Definition collect (err : error) (st : gset string * string)
  : option (bool * (gset string * string)) :=
  let '(seenerrs, result) := st in
  match Error err with
  | None => None
  | Some msg =>
      if bool_decide (msg ∈ seenerrs) then Some (false, (seenerrs, result))
      else
        let seenerrs := {[msg]} ∪ seenerrs in
        let result :=
          if bool_decide (1 < size seenerrs) then result +:+ ", " else result in
        Some (false, (seenerrs, result +:+ msg))
  end.

(** The first occurrence of each distinct message, in order. *)
Fixpoint keepFirst (msgs : list string) : list string :=
  match msgs with
  | [] => []
  | m :: msgs => m :: filter (λ x, x ≠ m) (keepFirst msgs)
  end.

(** One more message for the list of distinct messages seen so far. *)
Definition seeMsg (acc : list string) (m : string) : list string :=
  if bool_decide (m ∈ acc) then acc else acc ++ [m].

(** The text of an aggregate of two or more elements, from the messages of
    the visited errors. *)
Definition rendering (msgs : list string) : string :=
  let distinct := keepFirst msgs in
  let joined := String.concat ", " distinct in
  if bool_decide (length distinct = 1) then joined
  else "[" +:+ joined +:+ "]".

(** The leaves of a nested structure: its non-nil errors that are not
    Aggregates, in the order a depth-first, left-to-right walk finds them. *)
Fixpoint leavesErr (err : error) {struct err} : list error :=
  match err with
  | ErrNil => []
  | ErrPlain _ _ => [err]
  | ErrAgg _ errs => flat_map leavesErr errs
  end.

Definition leaves (errs : list error) : list error := flat_map leavesErr errs.

Definition isLeaf (err : error) : Prop :=
  err ≠ ErrNil ∧ asAggregate err = None.

(** The values the package itself builds: plain errors, and aggregates made
    by [NewAggregate] of such values, which are of the package's own type,
    not empty and free of nil. *)
Fixpoint canonical (err : error) {struct err} : bool :=
  match err with
  | ErrNil => false
  | ErrPlain _ _ => true
  | ErrAgg aggregate errs =>
      negb (bool_decide (length errs = 0)) && forallb canonical errs
  | ErrAgg (custom _ _) _ => false
  end.

(** The invariant of the data model, for any implementation of Aggregate:
    no Aggregate in the structure is empty, and none holds a nil. *)
Fixpoint wellFormed (err : error) {struct err} : bool :=
  match err with
  | ErrNil => false
  | ErrPlain _ _ => true
  | ErrAgg _ errs =>
      negb (bool_decide (length errs = 0)) && forallb wellFormed errs
  end.

(** The message of the error made for one entry of a message-count map. *)
Definition entryMessage (entry : string * Z) : string :=
  let '(errStr, count) := entry in
  if bool_decide (1 < count)%Z
  then errStr +:+ " (repeated " +:+ pretty count +:+ " times)"
  else errStr.

(** A reference is valid in a heap when it is nil or the heap holds its
    table. *)
Definition valid (h : gmap positive (gset string)) (s : Sets.String) : Prop :=
  match s with
  | None => True
  | Some l => l ∈ dom h
  end.

(** The values sent so far by a list of workers. *)
Definition sentBy (ws : list worker) : list error :=
  omap (λ w, match w with Done e => Some e | _ => None end) ws.

(** A worker that has not sent its value. *)
Definition unsent (w : worker) : Prop := ∀ e, w ≠ Done e.

(** How many steps a worker still has to take. *)
Definition rank (w : worker) : nat :=
  match w with
  | Idle => 3
  | Running => 2
  | Returned _ => 1
  | Done _ => 0
  end.

(** A bound on the number of steps left to a state. *)
Definition fuel (funcs : list error) (s : goroutines) : nat :=
  sum_list (rank <$> workers s) + (length funcs - received s)
  + match returned s with Some _ => 0 | None => 1 end.

(** What every reachable state satisfies. *)
Definition invariant (funcs : list error) (s : goroutines) : Prop :=
  length (workers s) = length funcs ∧
  launched s ≤ length funcs ∧
  (∀ k, launched s ≤ k → k < length funcs → workers s !! k = Some Idle) ∧
  (∀ k, k < launched s → workers s !! k ≠ Some Idle) ∧
  (∀ k e, workers s !! k = Some (Returned e) ∨ workers s !! k = Some (Done e) →
          funcs !! k = Some e) ∧
  (0 < received s → launched s = length funcs) ∧
  (∃ got, collected s = nonNil got ∧ length got = received s ∧
          got ++ errChan s ≡ₚ sentBy (workers s)) ∧
  (∀ agg, returned s = Some agg →
          agg = NewAggregate (collected s) ∧ received s = length funcs ∧
          launched s = length funcs).

(** No nil anywhere in the structure. *)
Fixpoint nilFree (err : error) {struct err} : bool :=
  match err with
  | ErrNil => false
  | ErrPlain _ _ => true
  | ErrAgg _ errs => forallb nilFree errs
  end.

(** The text of a plain error. *)
Definition plainMsg (err : error) : string :=
  match err with
  | ErrPlain _ msg => msg
  | _ => ""
  end.

(** The byte occurs in the string. *)
Fixpoint byteIn (c : ascii) (s : string) : bool :=
  match s with
  | EmptyString => false
  | String a s' => bool_decide (a = c) || byteIn c s'
  end.

(** [Complete()] is not there, or it returns nil. *)
Definition completes (options : CliOptions) : Prop :=
  Complete options = None ∨ Complete options = Some ErrNil.




(** An Aggregate of another implementation, alone and in aggregates of the
    package. *)
Definition foreignAgg : error := ErrAgg (custom 7 "outer") [ErrPlain 1 "a"].


Definition foreignNested : list error :=
  [ErrAgg (custom 9 "outer") [ErrAgg aggregate [ErrPlain 1 "a"; ErrPlain 2 "b"]];
   ErrPlain 3 "c"].

(** * Properties *)

(** ** Induction on nested errors *)

Lemma error_ind (P : error → Prop) :
  P ErrNil →
  (∀ id msg, P (ErrPlain id msg)) →
  (∀ k errs, Forall P errs → P (ErrAgg k errs)) →
  ∀ err, P err.
Proof.
  intros Hnil Hplain Hagg.
  fix IH 1. intros [ | id msg | k errs].
  - exact Hnil.
  - apply Hplain.
  - apply Hagg. induction errs as [ | e errs IHerrs]; constructor.
    + apply IH.
    + exact IHerrs.
Qed.

(** ** NewAggregate *)

Lemma foldl_append_nonNil (errlist acc : list error) :
  foldl (fun errs e => if isNil e then errs else errs ++ [e]) acc errlist
  = acc ++ nonNil errlist.
Proof.
  revert acc. induction errlist as [ | e errlist IH]; intros acc; simpl.
  - by rewrite app_nil_r.
  - rewrite IH. unfold nonNil. destruct e; simpl.
    + by rewrite filter_cons_False by (simpl; tauto).
    + by rewrite filter_cons_True, <- app_assoc by (simpl; tauto).
    + by rewrite filter_cons_True, <- app_assoc by (simpl; tauto).
Qed.

Lemma NewAggregate_nonNil (errlist : list error) :
  NewAggregate errlist =
  match nonNil errlist with
  | [] => AggNil
  | errs => Agg aggregate errs
  end.
Proof.
  unfold NewAggregate. rewrite foldl_append_nonNil. simpl.
  destruct errlist as [ | e errlist]; [done | ].
  rewrite bool_decide_eq_false_2 by done.
  destruct (nonNil (e :: errlist)); done.
Qed.

Lemma nonNil_id (errlist : list error) :
  Forall (λ e, e ≠ ErrNil) errlist → nonNil errlist = errlist.
Proof.
  unfold nonNil. induction 1 as [ | e l He Hl IH]; [done | ].
  rewrite filter_cons_True by (destruct e; simpl; first [tauto | congruence]).
  by rewrite IH.
Qed.

Lemma nonNil_all_nil (errlist : list error) :
  Forall (λ e, e = ErrNil) errlist ↔ nonNil errlist = [].
Proof.
  unfold nonNil. induction errlist as [ | e l IH]; [done | ].
  destruct e.
  - rewrite filter_cons_False by (simpl; tauto). rewrite <- IH.
    split; [by inversion 1 | by constructor].
  - rewrite filter_cons_True by (simpl; tauto). split; [by inversion 1 | done].
  - rewrite filter_cons_True by (simpl; tauto). split; [by inversion 1 | done].
Qed.

Lemma nonNil_Forall (errlist : list error) :
  Forall (λ e, e ≠ ErrNil) (nonNil errlist).
Proof.
  unfold nonNil. apply Forall_forall. intros e [He _]%list_elem_of_filter.
  by destruct e.
Qed.

Lemma nonNil_idemp (errlist : list error) : nonNil (nonNil errlist) = nonNil errlist.
Proof. apply nonNil_id, nonNil_Forall. Qed.

(** C1.  [NewAggregate] returns nil exactly on a list that is empty or
    holds only nil entries; on any other list it returns the package's
    aggregate whose [Errors()] is the list of the non-nil entries in their
    original order, which is the whole list when it holds no nil entry. *)
Theorem NewAggregate_spec (L : list error) :
  (Forall (λ e, e = ErrNil) L → NewAggregate L = AggNil) ∧
  (¬ Forall (λ e, e = ErrNil) L →
     NewAggregate L = Agg aggregate (nonNil L) ∧
     Errors (NewAggregate L) = Some (nonNil L)) ∧
  (L ≠ [] → Forall (λ e, e ≠ ErrNil) L → Errors (NewAggregate L) = Some L).
Proof.
  rewrite NewAggregate_nonNil. split; [ | split].
  - intros H%nonNil_all_nil. by rewrite H.
  - intros H. rewrite nonNil_all_nil in H.
    destruct (nonNil L); [done | by split].
  - intros Hne H. rewrite nonNil_id by done. by destruct L.
Qed.

Lemma NewAggregate_spec_witness :
  NewAggregate [ErrNil; ErrNil] = AggNil ∧
  Errors (NewAggregate [ErrPlain 1 "a"; ErrNil; ErrPlain 2 "b"])
  = Some [ErrPlain 1 "a"; ErrPlain 2 "b"] ∧
  Errors (NewAggregate [ErrPlain 1 "a"; ErrPlain 2 "b"])
  = Some [ErrPlain 1 "a"; ErrPlain 2 "b"].
Proof.
  split; [ | split].
  - apply (NewAggregate_spec [ErrNil; ErrNil]). by repeat constructor.
  - apply (NewAggregate_spec [ErrPlain 1 "a"; ErrNil; ErrPlain 2 "b"]).
    intros H. by inversion H.
  - apply (NewAggregate_spec [ErrPlain 1 "a"; ErrPlain 2 "b"]); [done | ].
    by repeat constructor.
Defined.

(** ** visit *)

Lemma runOver_app {S : Type} (f : error → S → option (bool * S)) l1 l2 s :
  runOver f (l1 ++ l2) s =
  match runOver f l1 s with
  | None => None
  | Some (true, s') => Some (true, s')
  | Some (false, s') => runOver f l2 s'
  end.
Proof.
  revert s. induction l1 as [ | e l1 IH]; intros s; simpl; [done | ].
  destruct (f e s) as [[[] s'] | ]; auto.
Qed.

Lemma visitErr_runOver {S : Type} (f : error → S → option (bool * S)) err :
  ∀ s, visitErr f err s = runOver f (visitedErr err) s.
Proof.
  induction err as [ | id msg | k errs IH] using error_ind; intros s; simpl.
  - by destruct (f ErrNil s) as [[[] s'] | ].
  - by destruct (f (ErrPlain id msg) s) as [[[] s'] | ].
  - destruct k as [ | id msg].
    + revert s. induction IH as [ | e errs He _ IHerrs]; intros s; simpl; [done | ].
      rewrite runOver_app, He.
      destruct (runOver f (visitedErr e) s) as [[[] s'] | ]; auto.
    + clear IH. revert s. induction errs as [ | e errs IHerrs]; intros s; simpl; [done | ].
      destruct (f e s) as [[[] s'] | ]; auto.
Qed.

Lemma visit_runOver {S : Type} (f : error → S → option (bool * S)) agg :
  ∀ s, visit f agg s = runOver f (visited agg) s.
Proof.
  induction agg as [ | e agg IH]; intros s; simpl; [done | ].
  unfold visited. simpl. rewrite runOver_app, visitErr_runOver.
  destruct (runOver f (visitedErr e) s) as [[[] s'] | ]; auto.
Qed.

Lemma reaches_mono agg agg' e :
  (∀ x, x ∈ agg → x ∈ agg') → reaches agg e → reaches agg' e.
Proof.
  intros Hsub Hr.
  destruct Hr as [agg e Hin Hno | agg nested e Hin Hr | agg id msg nested e Hin Hn].
  - apply reaches_plain; auto.
  - apply reaches_aggregate with nested; auto.
  - apply reaches_custom with id msg nested; auto.
Qed.

Lemma visitedErr_reaches x : ∀ e, e ∈ visitedErr x → reaches [x] e.
Proof.
  induction x as [ | id msg | k errs IH] using error_ind; intros e Hx; simpl in Hx.
  - apply list_elem_of_singleton in Hx as ->. apply reaches_plain; [by left | done].
  - apply list_elem_of_singleton in Hx as ->. apply reaches_plain; [by left | done].
  - destruct k as [ | id msg].
    + apply reaches_aggregate with errs; [by left | ].
      apply list_elem_of_In, in_flat_map in Hx as [y [Hy Hey]].
      apply list_elem_of_In in Hy, Hey.
      rewrite Forall_forall in IH.
      apply reaches_mono with [y]; [ | by apply IH].
      by intros ? ->%list_elem_of_singleton.
    + apply reaches_custom with id msg errs; [by left | done].
Qed.

Lemma visited_reaches agg e : e ∈ visited agg ↔ reaches agg e.
Proof.
  split.
  - intros [y [Hy Hey]]%list_elem_of_In%in_flat_map.
    apply list_elem_of_In in Hy, Hey.
    apply reaches_mono with [y]; [ | by apply visitedErr_reaches].
    by intros ? ->%list_elem_of_singleton.
  - induction 1 as [agg e Hin Hno | agg nested e Hin _ IH | agg id msg nested e Hin Hn];
      unfold visited; apply list_elem_of_In, in_flat_map.
    + exists e. split; [by apply list_elem_of_In | ].
      destruct e; simpl; [by left | by left | done].
    + exists (ErrAgg aggregate nested). split; [by apply list_elem_of_In | ].
      simpl. by apply list_elem_of_In.
    + exists (ErrAgg (custom id msg) nested). split; [by apply list_elem_of_In | ].
      simpl. by apply list_elem_of_In.
Qed.


Section IsSpec.
Variable errors_Is : error → error → bool.

Lemma runOver_pure (p : error → bool) l :
  runOver (fun err (_ : unit) => Some (p err, tt)) l tt = Some (existsb p l, tt).
Proof.
  induction l as [ | e l IH]; simpl; [done | ].
  destruct (p e); simpl; [done | exact IH].
Qed.

Lemma Is_existsb agg target :
  Is errors_Is agg target = Some (existsb (λ e, errors_Is e target) (visited agg)).
Proof.
  unfold Is. rewrite visit_runOver.
  by rewrite (runOver_pure (λ e, errors_Is e target)).
Qed.

End IsSpec.


(** ** Error *)

Lemma string_app_assoc (a b c : string) : (a +:+ b) +:+ c = a +:+ (b +:+ c).
Proof.
  induction a as [ | x a IH]; [done | ].
  change (String x ((a +:+ b) +:+ c) = String x (a +:+ (b +:+ c))).
  by rewrite IH.
Qed.

Lemma concat_snoc (sep : string) (acc : list string) (m : string) :
  String.concat sep (acc ++ [m]) =
  match acc with
  | [] => m
  | _ => String.concat sep acc +:+ sep +:+ m
  end.
Proof.
  induction acc as [ | x acc IH]; [done | ].
  destruct acc as [ | y acc]; [done | ].
  change (String.concat sep ((x :: y :: acc) ++ [m]))
    with (x +:+ sep +:+ String.concat sep ((y :: acc) ++ [m])).
  rewrite IH.
  change (String.concat sep (x :: y :: acc))
    with (x +:+ sep +:+ String.concat sep (y :: acc)).
  by rewrite !string_app_assoc.
Qed.

Lemma seeMsg_NoDup acc m : NoDup acc → NoDup (seeMsg acc m).
Proof.
  intros Hnd. unfold seeMsg. case_bool_decide as Hin; [done | ].
  apply NoDup_app. split; [done | ]. split; [ | apply NoDup_singleton].
  by intros x Hx ->%list_elem_of_singleton.
Qed.

Lemma foldl_seeMsg_keepFirst msgs : ∀ acc,
  foldl seeMsg acc msgs = acc ++ filter (λ x, x ∉ acc) (keepFirst msgs).
Proof.
  induction msgs as [ | m msgs IH]; intros acc; simpl.
  - by rewrite app_nil_r.
  - rewrite IH. unfold seeMsg. case_bool_decide as Hin.
    + rewrite filter_cons_False by tauto. f_equal.
      rewrite list_filter_filter. apply list_filter_iff.
      intros x. split; [ | by intros [? ?]].
      intros Hx. split; [done | by intros ->].
    + rewrite filter_cons_True by done. rewrite <- app_assoc. simpl. do 2 f_equal.
      rewrite list_filter_filter. apply list_filter_iff.
      intros x. rewrite elem_of_app, list_elem_of_singleton. tauto.
Qed.

Lemma filter_not_in_nil (l : list string) : filter (λ x, x ∉ []) l = l.
Proof.
  induction l as [ | x l IH]; [done | ].
  rewrite filter_cons_True by apply not_elem_of_nil. by rewrite IH.
Qed.

Lemma collect_seen (acc : list string) (err : error) (m : string) :
  NoDup acc → Error err = Some m →
  collect err (list_to_set acc, String.concat ", " acc)
  = Some (false, (list_to_set (seeMsg acc m), String.concat ", " (seeMsg acc m))).
Proof.
  intros Hnd Hm. unfold collect, seeMsg. rewrite Hm.
  rewrite (bool_decide_ext (m ∈ list_to_set acc) (m ∈ acc))
    by apply elem_of_list_to_set.
  case_bool_decide as Hin; [done | ].
  assert (Hset : {[m]} ∪ list_to_set acc =@{gset string} list_to_set (acc ++ [m])).
  { rewrite list_to_set_snoc_L. apply (comm_L (∪)). }
  rewrite Hset, size_list_to_set, length_app, concat_snoc; simpl.
  - destruct acc as [ | x acc]; simpl; [done | ].
    rewrite bool_decide_eq_true_2 by lia. by rewrite string_app_assoc.
  - apply (seeMsg_NoDup acc m) in Hnd. unfold seeMsg in Hnd.
    by rewrite bool_decide_eq_false_2 in Hnd.
Qed.

Lemma runOver_collect (l : list error) (msgs : list string) :
  Forall2 (λ e m, Error e = Some m) l msgs →
  ∀ acc, NoDup acc →
    runOver collect l (list_to_set acc, String.concat ", " acc)
    = Some (false, (list_to_set (foldl seeMsg acc msgs),
                    String.concat ", " (foldl seeMsg acc msgs))) ∧
    NoDup (foldl seeMsg acc msgs).
Proof.
  induction 1 as [ | e m l msgs He _ IH]; intros acc Hnd; [done | ].
  cbn [runOver foldl]. rewrite (collect_seen acc e m) by done.
  apply IH. by apply seeMsg_NoDup.
Qed.

(** In a structure made of plain errors and the package's own aggregates
    the traversal hands over exactly the leaves. *)
Lemma visitedErr_canonical err : canonical err = true → visitedErr err = leavesErr err.
Proof.
  induction err as [ | id msg | k errs IH] using error_ind; [done | done | ].
  destruct k as [ | id msg]; [ | done]. simpl.
  intros [_ Hall]%andb_true_iff.
  induction IH as [ | e errs He _ IHerrs]; [done | ].
  simpl in Hall. apply andb_true_iff in Hall as [Hc Hall].
  simpl. by rewrite He, IHerrs.
Qed.

Lemma visited_canonical agg : forallb canonical agg = true → visited agg = leaves agg.
Proof.
  intros Hall. unfold visited, leaves.
  induction agg as [ | e agg IH]; [done | ].
  simpl in Hall. apply andb_true_iff in Hall as [Hc Hall].
  simpl. by rewrite visitedErr_canonical, IH.
Qed.

Lemma Error_aggregate_unfold (a b : error) (rest : list error) :
  Error (ErrAgg aggregate (a :: b :: rest)) =
  match visit collect (a :: b :: rest) (∅, "") with
  | None => None
  | Some (_, (seenerrs, result)) =>
      if bool_decide (size seenerrs = 1) then Some result
      else Some ("[" +:+ result +:+ "]")
  end.
Proof. reflexivity. Qed.

(** C2, as amended.  [Error()] of an aggregate of one element is that
    element's message.  With two or more elements it takes the messages of
    the visited errors in order, keeps the first occurrence of each distinct
    text, joins them with ", ", and returns the joined text bare when one
    distinct text remains and between "[" and "]" otherwise.  The visited
    errors are, from left to right: an element that is not an Aggregate,
    itself; of a nested aggregate of the package's own type, its visited
    errors; of a nested Aggregate of another implementation, its elements
    as they are, not entered.  For a structure of plain errors and
    aggregates of the package the visited errors are exactly its leaves.
    (Entering every nested Aggregate, as the claim was stated, fails: see
    the counterexample below.) *)
Theorem Error_spec :
  (∀ e, Error (ErrAgg aggregate [e]) = Error e) ∧
  (∀ e, Error (asError (NewAggregate [e])) = Error e) ∧
  (∀ agg msgs,
     2 ≤ length agg →
     Forall2 (λ e m, Error e = Some m) (visited agg) msgs →
     Error (ErrAgg aggregate agg) = Some (rendering msgs)) ∧
  (∀ agg, forallb canonical agg = true → visited agg = leaves agg) ∧
  Error (asError (NewAggregate [ErrPlain 1 "disk full"; ErrPlain 2 "disk full";
                                ErrPlain 3 "network timeout"]))
  = Some "[disk full, network timeout]" ∧
  visited [] = [] ∧
  (∀ id msg rest, visited (ErrPlain id msg :: rest) = ErrPlain id msg :: visited rest) ∧
  (∀ nested rest, visited (ErrAgg aggregate nested :: rest) = visited nested ++ visited rest) ∧
  (∀ id msg nested rest,
     visited (ErrAgg (custom id msg) nested :: rest) = nested ++ visited rest).
Proof.
  split; [ | split; [ | split; [ | split; [ | split; [ | by repeat split]]]]].
  - intros e. reflexivity.
  - intros e. by destruct e.
  - intros agg msgs Hlen Hmsgs.
    destruct agg as [ | a [ | b rest]]; simpl in Hlen; [lia | lia | ].
    rewrite Error_aggregate_unfold, visit_runOver.
    destruct (runOver_collect _ _ Hmsgs [] (NoDup_nil_2)) as [Hrun Hnd].
    change (list_to_set [], String.concat ", " []) with (∅ : gset string, "") in Hrun.
    rewrite Hrun, size_list_to_set by done.
    unfold rendering. rewrite foldl_seeMsg_keepFirst. simpl.
    rewrite filter_not_in_nil. by case_bool_decide.
  - apply visited_canonical.
  - reflexivity.
Qed.

Lemma Error_spec_witness :
  Error (ErrAgg aggregate [ErrPlain 1 "a"; ErrAgg aggregate [ErrPlain 2 "b"; ErrPlain 3 "a"]])
  = Some (rendering ["a"; "b"; "a"]).
Proof.
  destruct Error_spec as (_ & _ & Hmany & _).
  apply Hmany; [simpl; lia | ].
  by repeat constructor.
Defined.

(** C2 as it was stated fails.  Below an Aggregate of another
    implementation a nested aggregate is not entered: in a value that the
    package's functions accept, with leaves a, b and c, the text is made of
    the nested aggregate's own text "[a, b]" and of "c", not of the three
    leaves' messages. *)
Lemma Error_spec_counterexample :
  wellFormed (ErrAgg aggregate foreignNested) = true ∧
  2 ≤ length foreignNested ∧
  leaves foreignNested = [ErrPlain 1 "a"; ErrPlain 2 "b"; ErrPlain 3 "c"] ∧
  rendering (plainMsg <$> leaves foreignNested) = "[a, b, c]" ∧
  Error (ErrAgg aggregate foreignNested) = Some "[[a, b], c]" ∧
  Error (ErrAgg aggregate foreignNested)
  ≠ Some (rendering (plainMsg <$> leaves foreignNested)).
Proof.
  split; [reflexivity | ]. split; [simpl; lia | ]. split; [reflexivity | ].
  assert (Hleaves : rendering (plainMsg <$> leaves foreignNested) = "[a, b, c]")
    by (vm_compute; reflexivity).
  assert (Herr : Error (ErrAgg aggregate foreignNested) = Some "[[a, b], c]")
    by (vm_compute; reflexivity).
  split; [exact Hleaves | ]. split; [exact Herr | ].
  rewrite Hleaves, Herr. discriminate.
Qed.

(** ** Flatten *)

Lemma leavesErr_isLeaf err : Forall isLeaf (leavesErr err).
Proof.
  induction err as [ | id msg | k errs IH] using error_ind; simpl.
  - constructor.
  - by repeat constructor.
  - induction IH as [ | e errs He _ IHerrs]; simpl; [constructor | ].
    by apply Forall_app.
Qed.

Lemma leaves_isLeaf errs : Forall isLeaf (leaves errs).
Proof. apply (leavesErr_isLeaf (ErrAgg aggregate errs)). Qed.

Lemma isLeaf_nonNil errs : Forall isLeaf errs → nonNil errs = errs.
Proof.
  intros H. apply nonNil_id. eapply Forall_impl; [exact H | ]. by intros e [? _].
Qed.

Lemma isLeaf_leaves errs : Forall isLeaf errs → leaves errs = errs.
Proof.
  unfold leaves. induction 1 as [ | e errs [Hn Ha] _ IH]; simpl; [done | ].
  rewrite IH. by destruct e.
Qed.

Lemma leaves_app l1 l2 : leaves (l1 ++ l2) = leaves l1 ++ leaves l2.
Proof. apply flat_map_app. Qed.

Lemma wellFormed_leaves err : wellFormed err = true → leavesErr err ≠ [].
Proof.
  induction err as [ | id msg | k errs IH] using error_ind; simpl; [done | done | ].
  intros [Hlen Hall]%andb_true_iff.
  destruct IH as [ | e errs He _]; [done | ].
  simpl in Hall. apply andb_true_iff in Hall as [Hc _].
  simpl. intros [Hnil _]%app_eq_nil. by apply He.
Qed.

Lemma NewAggregate_leaves errs :
  NewAggregate (leaves errs) =
  match leaves errs with
  | [] => AggNil
  | l => Agg aggregate l
  end.
Proof.
  rewrite NewAggregate_nonNil. by rewrite isLeaf_nonNil by apply leaves_isLeaf.
Qed.

Lemma flattenErr_leaves err : ∀ result, flattenErr result err = result ++ leavesErr err.
Proof.
  induction err as [ | id msg | k errs IH] using error_ind; intros result; simpl.
  - by rewrite app_nil_r.
  - done.
  - assert (Hfold : ∀ acc, foldl flattenErr acc errs = acc ++ leaves errs).
    { clear result. induction IH as [ | e errs He _ IHerrs]; intros acc; simpl.
      - by rewrite app_nil_r.
      - rewrite IHerrs, He. unfold leaves. simpl. by rewrite <- app_assoc. }
    rewrite Hfold. simpl. rewrite NewAggregate_leaves. fold (leaves errs).
    destruct (leaves errs); [by rewrite app_nil_r | done].
Qed.

Lemma foldl_flattenErr errs : ∀ acc, foldl flattenErr acc errs = acc ++ leaves errs.
Proof.
  induction errs as [ | e errs IH]; intros acc; simpl.
  - by rewrite app_nil_r.
  - rewrite IH, flattenErr_leaves. unfold leaves. simpl. by rewrite <- app_assoc.
Qed.

(** The recursive call of [Flatten] on a nested Aggregate, as the source
    writes it. *)
Lemma flattenErr_Flatten k errs result :
  flattenErr result (ErrAgg k errs) =
  match Flatten (Agg k errs) with
  | AggNil => result
  | Agg _ rerrs => result ++ rerrs
  end.
Proof. reflexivity. Qed.

Lemma Flatten_leaves k errs : Flatten (Agg k errs) = NewAggregate (leaves errs).
Proof. unfold Flatten. by rewrite foldl_flattenErr. Qed.

Lemma Flatten_idemp agg : Flatten (Flatten agg) = Flatten agg.
Proof.
  destruct agg as [ | k errs]; [done | ].
  rewrite Flatten_leaves, NewAggregate_leaves.
  destruct (leaves errs) as [ | e l] eqn:Hl; [done | ].
  rewrite Flatten_leaves, isLeaf_leaves, NewAggregate_nonNil.
  - rewrite isLeaf_nonNil; [done | ]. rewrite <- Hl. apply leaves_isLeaf.
  - rewrite <- Hl. apply leaves_isLeaf.
Qed.

(** C5.  [Flatten(nil)] is nil.  [Flatten] of an aggregate is what
    [NewAggregate] makes of its leaves: a single-level aggregate of every
    leaf in the order of discovery, no element of which is an Aggregate
    (and nil when there is no leaf at all, which the invariant of the data
    model excludes).  [Flatten] is idempotent. *)
Theorem Flatten_spec :
  Flatten AggNil = AggNil ∧
  (∀ k errs,
     Flatten (Agg k errs) = NewAggregate (leaves errs) ∧
     Forall isLeaf (leaves errs) ∧
     (leaves errs ≠ [] →
        Flatten (Agg k errs) = Agg aggregate (leaves errs) ∧
        Errors (Flatten (Agg k errs)) = Some (leaves errs)) ∧
     (wellFormed (ErrAgg k errs) = true → leaves errs ≠ [])) ∧
  (∀ a, Flatten (Flatten a) = Flatten a ∧
        Errors (Flatten (Flatten a)) = Errors (Flatten a)).
Proof.
  split; [done | split].
  - intros k errs. split; [apply Flatten_leaves | ].
    split; [apply leaves_isLeaf | ]. split.
    + intros Hne. rewrite Flatten_leaves, NewAggregate_leaves.
      by destruct (leaves errs).
    + apply (wellFormed_leaves (ErrAgg k errs)).
  - intros a. by rewrite Flatten_idemp.
Qed.

Lemma Flatten_spec_witness :
  Errors (Flatten (Agg aggregate
            [ErrPlain 1 "a";
             ErrAgg (custom 7 "c") [ErrPlain 2 "b"; ErrAgg aggregate [ErrPlain 3 "a"]]]))
  = Some [ErrPlain 1 "a"; ErrPlain 2 "b"; ErrPlain 3 "a"].
Proof.
  destruct Flatten_spec as (_ & Hflat & _).
  apply Hflat. done.
Defined.

(** ** FilterOut *)

Lemma FilterOut_aggregate k errs fns :
  FilterOut (ErrAgg k errs) fns = asError (NewAggregate (filterErrors errs fns)).
Proof. reflexivity. Qed.

Lemma filterErrors_nonNil errs fns :
  filterErrors errs fns = nonNil (map (λ e, FilterOut e fns) errs).
Proof.
  unfold filterErrors.
  assert (H : ∀ acc,
    foldl (λ result err, let r := FilterOut err fns in
                         if isNil r then result else result ++ [r]) acc errs
    = acc ++ nonNil (map (λ e, FilterOut e fns) errs)); [ | apply (H [])].
  induction errs as [ | e errs IH]; intros acc; simpl.
  - by rewrite app_nil_r.
  - rewrite IH. unfold nonNil. destruct (FilterOut e fns); simpl.
    + by rewrite filter_cons_False by (simpl; tauto).
    + by rewrite filter_cons_True, <- app_assoc by (simpl; tauto).
    + by rewrite filter_cons_True, <- app_assoc by (simpl; tauto).
Qed.

Lemma matchesError_exists err fns :
  matchesError err fns = true ↔ ∃ fn, fn ∈ fns ∧ fn err = true.
Proof.
  induction fns as [ | fn fns IH]; simpl.
  - split; [done | ]. by intros [fn [?%elem_of_nil _]].
  - destruct (fn err) eqn:Hfn.
    + split; [ | done]. intros _. exists fn. split; [by left | done].
    + rewrite IH. split.
      * intros [g [Hin Hg]]. exists g. split; [by right | done].
      * intros [g [Hin Hg]]. apply elem_of_cons in Hin as [-> | Hin]; [congruence | eauto].
Qed.

Lemma leaves_nonNil errs : leaves (nonNil errs) = leaves errs.
Proof.
  unfold leaves, nonNil. induction errs as [ | e errs IH]; [done | ].
  destruct e.
  - by rewrite filter_cons_False by (simpl; tauto).
  - rewrite filter_cons_True by (simpl; tauto). simpl. by rewrite IH.
  - rewrite filter_cons_True by (simpl; tauto). simpl. by rewrite IH.
Qed.

Lemma leavesErr_NewAggregate errs :
  leavesErr (asError (NewAggregate errs)) = leaves errs.
Proof.
  rewrite NewAggregate_nonNil, <- (leaves_nonNil errs).
  by destruct (nonNil errs).
Qed.

Lemma leavesErr_FilterOut fns err :
  leavesErr (FilterOut err fns)
  = filter (λ x, ¬ matchesError x fns) (leavesErr err).
Proof.
  induction err as [ | id msg | k errs IH] using error_ind.
  - done.
  - simpl. destruct (matchesError (ErrPlain id msg) fns) eqn:Hm; simpl.
    + by rewrite filter_cons_False by (rewrite Hm; simpl; tauto).
    + by rewrite filter_cons_True by (rewrite Hm; simpl; tauto).
  - rewrite FilterOut_aggregate, leavesErr_NewAggregate, filterErrors_nonNil, leaves_nonNil.
    simpl. unfold leaves.
    induction IH as [ | e errs He _ IHerrs]; simpl; [done | ].
    by rewrite filter_app, He, IHerrs.
Qed.

Lemma canonical_nonNil err : canonical err = true → err ≠ ErrNil.
Proof. by destruct err. Qed.

Lemma canonical_leaves err : canonical err = true → leavesErr err ≠ [].
Proof.
  induction err as [ | id msg | k errs IH] using error_ind; simpl; [done | done | ].
  destruct k as [ | id msg]; [ | done].
  intros [Hlen Hall]%andb_true_iff.
  destruct IH as [ | e errs He _]; [done | ].
  simpl in Hall. apply andb_true_iff in Hall as [Hc _].
  simpl. intros [Hnil _]%app_eq_nil. by apply He.
Qed.

(** What [FilterOut] returns is nil or a value in the package's own form. *)
Lemma FilterOut_canonical fns err :
  FilterOut err fns = ErrNil ∨ canonical (FilterOut err fns) = true.
Proof.
  induction err as [ | id msg | k errs IH] using error_ind.
  - by left.
  - simpl. destruct (matchesError (ErrPlain id msg) fns); simpl; [by left | by right].
  - rewrite FilterOut_aggregate, NewAggregate_nonNil, filterErrors_nonNil, nonNil_idemp.
    assert (H : forallb canonical (nonNil (map (λ e, FilterOut e fns) errs)) = true).
    { apply forallb_forall. intros x Hx%list_elem_of_In.
      unfold nonNil in Hx. apply list_elem_of_filter in Hx as [Hx Hin].
      apply list_elem_of_fmap in Hin as [y [-> Hy]].
      rewrite Forall_forall in IH. destruct (IH y Hy) as [Hnil | Hc]; [ | done].
      rewrite Hnil in Hx. simpl in Hx. tauto. }
    destruct (nonNil (map (λ e, FilterOut e fns) errs)) as [ | a l]; [by left | right].
    exact H.
Qed.

Lemma filter_unmatched_nil fns (l : list error) :
  filter (λ x, ¬ matchesError x fns) l = [] ↔
  Forall (λ x, matchesError x fns = true) l.
Proof.
  induction l as [ | x l IHl]; [done | ].
  destruct (matchesError x fns) eqn:Hm.
  - rewrite filter_cons_False by (rewrite Hm; simpl; tauto).
    rewrite IHl. split; [by constructor | by inversion 1].
  - rewrite filter_cons_True by (rewrite Hm; simpl; tauto).
    split; [done | ]. inversion 1; congruence.
Qed.

Lemma FilterOut_nil_iff fns err :
  FilterOut err fns = ErrNil ↔
  Forall (λ x, matchesError x fns = true) (leavesErr err).
Proof.
  rewrite <- filter_unmatched_nil, <- leavesErr_FilterOut.
  split; [by intros -> | ].
  intros Hnil. destruct (FilterOut_canonical fns err) as [ | Hc]; [done | ].
  by apply canonical_leaves in Hc.
Qed.

Lemma FilterOut_canonical_id err : canonical err = true → FilterOut err [] = err.
Proof.
  induction err as [ | id msg | k errs IH] using error_ind; [done | done | ].
  destruct k as [ | id msg]; [ | done]. simpl canonical.
  intros [Hlen Hall]%andb_true_iff.
  rewrite FilterOut_aggregate, NewAggregate_nonNil, filterErrors_nonNil, nonNil_idemp.
  assert (Hmap : map (λ e, FilterOut e []) errs = errs).
  { clear Hlen. induction IH as [ | e errs He _ IHerrs]; [done | ].
    simpl in Hall. apply andb_true_iff in Hall as [Hc Hall].
    simpl. by rewrite He, IHerrs. }
  rewrite Hmap, nonNil_id.
  - destruct errs; [done | done].
  - apply Forall_forall. intros x Hx%list_elem_of_In.
    apply canonical_nonNil. rewrite forallb_forall in Hall. by apply Hall.
Qed.

(** The matchers are consulted on plain errors only. *)
Lemma FilterOut_plain_ext fns fns' err :
  (∀ id msg, matchesError (ErrPlain id msg) fns = matchesError (ErrPlain id msg) fns') →
  FilterOut err fns = FilterOut err fns'.
Proof.
  intros Hext.
  induction err as [ | id msg | k errs IH] using error_ind; [done | | ].
  - simpl. by rewrite Hext.
  - rewrite !FilterOut_aggregate, !filterErrors_nonNil. do 3 f_equal.
    induction IH as [ | e errs He _ IHerrs]; [done | ].
    simpl. by rewrite He, IHerrs.
Qed.

Lemma leavesErr_FilterOut_none err : leavesErr (FilterOut err []) = leavesErr err.
Proof.
  rewrite leavesErr_FilterOut. induction (leavesErr err) as [ | x l IHl]; [done | ].
  rewrite filter_cons_True by (simpl; tauto). by rewrite IHl.
Qed.

(** C4, as amended.  [FilterOut] of nil is nil.  A plain error comes back
    itself when no matcher matches it and as nil when one does.  An
    Aggregate, of whatever implementation, is rebuilt by [NewAggregate] from
    what [FilterOut] leaves of its elements, so that the leaves of the
    result are the unmatched leaves of the input, in order.  Without
    matchers no leaf is removed, and nil, a plain error and a value in the
    package's own form come back unchanged; an Aggregate of another
    implementation does not (see the counterexample below).  When the
    matchers match every error the result is nil. *)
Theorem FilterOut_spec (fns : list Matcher) :
  FilterOut ErrNil fns = ErrNil ∧
  (∀ id msg,
     (matchesError (ErrPlain id msg) fns = false →
        FilterOut (ErrPlain id msg) fns = ErrPlain id msg) ∧
     (matchesError (ErrPlain id msg) fns = true →
        FilterOut (ErrPlain id msg) fns = ErrNil)) ∧
  (∀ err, matchesError err fns = true ↔ ∃ fn, fn ∈ fns ∧ fn err = true) ∧
  (∀ k errs,
     FilterOut (ErrAgg k errs) fns = asError (NewAggregate (filterErrors errs fns)) ∧
     filterErrors errs fns = nonNil (map (λ e, FilterOut e fns) errs) ∧
     leavesErr (FilterOut (ErrAgg k errs) fns)
     = filter (λ x, ¬ matchesError x fns) (leaves errs)) ∧
  (∀ err, leavesErr (FilterOut err []) = leavesErr err) ∧
  (∀ err, asAggregate err = None → FilterOut err [] = err) ∧
  (∀ err, canonical err = true → FilterOut err [] = err) ∧
  (∀ err, (∀ x, matchesError x fns = true) → FilterOut err fns = ErrNil).
Proof.
  split; [done | ]. split; [ | split; [ | split; [ | split; [ | split; [ | split]]]]].
  - intros id msg. simpl. split; by intros ->.
  - intros err. apply matchesError_exists.
  - intros k errs. split; [done | ]. split; [apply filterErrors_nonNil | ].
    apply (leavesErr_FilterOut fns (ErrAgg k errs)).
  - apply leavesErr_FilterOut_none.
  - intros err Hno. by destruct err.
  - apply FilterOut_canonical_id.
  - intros err Hall. apply FilterOut_nil_iff, Forall_forall. auto.
Qed.

Lemma FilterOut_spec_witness :
  FilterOut (ErrPlain 1 "a") [λ _, false] = ErrPlain 1 "a" ∧
  FilterOut (ErrPlain 1 "a") [λ _, true] = ErrNil ∧
  FilterOut (ErrAgg aggregate [ErrPlain 1 "a"; ErrAgg aggregate [ErrPlain 2 "b"]]) []
  = ErrAgg aggregate [ErrPlain 1 "a"; ErrAgg aggregate [ErrPlain 2 "b"]] ∧
  FilterOut (ErrAgg aggregate [ErrPlain 1 "a"; ErrAgg aggregate [ErrPlain 2 "b"]])
    [λ _, true] = ErrNil.
Proof.
  split; [ | split; [ | split]].
  - by apply (FilterOut_spec [λ _, false]).
  - by apply (FilterOut_spec [λ _, true]).
  - by apply (FilterOut_spec []).
  - by apply (FilterOut_spec [λ _, true]).
Defined.

(** C4 as it was stated fails.  Without matchers an Aggregate of another
    implementation, a value the package's functions accept, does not pass
    through unchanged: it comes back as the package's aggregate of its
    elements, whose text is the element's and no longer its own. *)
Lemma FilterOut_spec_counterexample :
  wellFormed foreignAgg = true ∧
  FilterOut foreignAgg [] = ErrAgg aggregate [ErrPlain 1 "a"] ∧
  FilterOut foreignAgg [] ≠ foreignAgg ∧
  Error foreignAgg = Some "outer" ∧
  Error (FilterOut foreignAgg []) = Some "a".
Proof.
  split; [reflexivity | ]. split; [reflexivity | ].
  split; [intros H; vm_compute in H; discriminate H | ].
  split; vm_compute; reflexivity.
Qed.

(** C10.  [FilterOut] consults the matchers on errors that are not
    Aggregates only: two lists of matchers that agree on plain errors filter
    alike, whatever they say of Aggregates; an Aggregate element is replaced
    by what [FilterOut] makes of it; matchers that match nothing but
    Aggregates remove no leaf; and an Aggregate becomes nil exactly when
    every leaf nested in it is matched. *)
Theorem FilterOut_aggregates_not_tested (fns : list Matcher) :
  (∀ fns' err,
     (∀ id msg, matchesError (ErrPlain id msg) fns
                = matchesError (ErrPlain id msg) fns') →
     FilterOut err fns = FilterOut err fns') ∧
  (∀ k errs,
     FilterOut (ErrAgg k errs) fns
     = asError (NewAggregate (nonNil (map (λ e, FilterOut e fns) errs)))) ∧
  (∀ err,
     (∀ x, matchesError x fns = true → asAggregate x ≠ None) →
     FilterOut err fns = FilterOut err [] ∧
     leavesErr (FilterOut err fns) = leavesErr err) ∧
  (∀ k errs,
     FilterOut (ErrAgg k errs) fns = ErrNil ↔
     Forall (λ x, matchesError x fns = true) (leaves errs)).
Proof.
  split; [ | split; [ | split]].
  - intros fns' err Hext. by apply FilterOut_plain_ext.
  - intros k errs. by rewrite FilterOut_aggregate, filterErrors_nonNil.
  - intros err Honly.
    assert (Heq : FilterOut err fns = FilterOut err []).
    { apply FilterOut_plain_ext. intros id msg. simpl.
      destruct (matchesError (ErrPlain id msg) fns) eqn:Hm; [ | done].
      by apply Honly in Hm. }
    split; [done | ]. rewrite Heq. apply leavesErr_FilterOut_none.
  - intros k errs. apply (FilterOut_nil_iff fns (ErrAgg k errs)).
Qed.

Lemma FilterOut_aggregates_not_tested_witness :
  FilterOut (ErrAgg aggregate [ErrPlain 1 "a"; ErrAgg aggregate [ErrPlain 2 "b"]])
    [λ x, bool_decide (asAggregate x ≠ None)]
  = FilterOut (ErrAgg aggregate [ErrPlain 1 "a"; ErrAgg aggregate [ErrPlain 2 "b"]]) [].
Proof.
  apply (FilterOut_aggregates_not_tested [λ x, bool_decide (asAggregate x ≠ None)]).
  intros x. simpl. case_bool_decide; done.
Defined.

(** ** Reduce *)

(** C6.  [Reduce] of an Aggregate of one element is that element, of an
    Aggregate of no element nil, and of anything else the argument. *)
Theorem Reduce_spec :
  (∀ k e, Reduce (ErrAgg k [e]) = e) ∧
  (∀ k, Reduce (ErrAgg k []) = ErrNil) ∧
  (∀ k errs, 2 ≤ length errs → Reduce (ErrAgg k errs) = ErrAgg k errs) ∧
  (∀ err, asAggregate err = None → Reduce err = err) ∧
  (∀ e, Reduce (asError (NewAggregate [e])) = e) ∧
  (∀ e1 e2, e1 ≠ ErrNil → e2 ≠ ErrNil →
     Reduce (asError (NewAggregate [e1; e2])) = asError (NewAggregate [e1; e2])).
Proof.
  split; [done | split; [done | split; [ | split; [ | split]]]].
  - intros k [ | a [ | b errs]] Hlen; simpl in Hlen; [lia | lia | done].
  - intros err Hno. by destruct err.
  - intros e. by destruct e.
  - intros e1 e2 H1 H2. by destruct e1, e2.
Qed.

Lemma Reduce_spec_witness :
  Reduce (ErrAgg aggregate [ErrPlain 1 "a"; ErrPlain 2 "b"])
  = ErrAgg aggregate [ErrPlain 1 "a"; ErrPlain 2 "b"] ∧
  Reduce (ErrPlain 1 "a") = ErrPlain 1 "a".
Proof.
  destruct Reduce_spec as (_ & _ & Hmany & Hplain & _).
  split.
  - apply Hmany. simpl. lia.
  - by apply Hplain.
Defined.

(** ** CreateAggregateFromMessageCountMap *)

Lemma string_app_nil_r (a : string) : a +:+ "" = a.
Proof.
  induction a as [ | x a IH]; [done | ].
  change (String x (a +:+ "") = String x a). by rewrite IH.
Qed.

Lemma imap_entries_Forall2 (entries : list (string * Z)) : ∀ ids : nat → nat,
  Forall2 (λ e entry, ∃ id, e = ErrPlain id (entryMessage entry))
    (imap (λ i entry, ErrPlain (ids i) (entryMessage entry)) entries) entries.
Proof.
  induction entries as [ | entry l IHl]; intros ids; [constructor | ].
  simpl. constructor; [by eexists | ]. apply (IHl (ids ∘ S)).
Qed.

Lemma imap_entries_Error (entries : list (string * Z)) : ∀ ids : nat → nat,
  Error <$> imap (λ i entry, ErrPlain (ids i) (entryMessage entry)) entries
  = (λ entry, Some (entryMessage entry)) <$> entries.
Proof.
  induction entries as [ | entry l IHl]; intros ids; [done | ].
  simpl. f_equal. apply (IHl (ids ∘ S)).
Qed.

Section RangeMapSpec.
Variable rangeMap : gmap string Z → list (string * Z).
Hypothesis rangeMap_perm : ∀ m, rangeMap m ≡ₚ map_to_list m.

Lemma foldl_entries (next : nat) (entries : list (string * Z)) : ∀ acc,
  foldl (fun result '(errStr, count) =>
           let countStr :=
             if bool_decide (1 < count)%Z
             then " (repeated " +:+ pretty count +:+ " times)"
             else "" in
           result ++ [fmt_Errorf (next + length result) (errStr +:+ countStr)])
        acc entries
  = acc ++ imap (λ i entry, ErrPlain (next + (length acc + i)) (entryMessage entry))
             entries.
Proof.
  induction entries as [ | [errStr count] entries IH]; intros acc; simpl.
  - by rewrite app_nil_r.
  - rewrite IH, <- app_assoc. simpl. f_equal. f_equal.
    + unfold fmt_Errorf. rewrite Nat.add_0_r. f_equal.
      case_bool_decide; [done | apply string_app_nil_r].
    + apply imap_ext. intros i entry _. simpl. f_equal.
      rewrite length_app. simpl. lia.
Qed.

(** C8.  For a map that is not nil the function makes one error for each
    entry of the map, in the order the loop walks the map, which is some
    arrangement of the entries; the message of the error of an entry is
    the key followed by " (repeated N times)" when the count N exceeds 1,
    and the key alone otherwise.  The result is what [NewAggregate] makes
    of these errors. *)
Theorem CreateAggregateFromMessageCountMap_spec (next : nat) (m : gmap string Z) :
  ∃ errs,
    CreateAggregateFromMessageCountMap rangeMap next (Some m) = NewAggregate errs ∧
    (m ≠ ∅ → CreateAggregateFromMessageCountMap rangeMap next (Some m)
             = Agg aggregate errs) ∧
    length errs = size m ∧
    NoDup errs ∧
    Forall2 (λ e entry, ∃ id, e = ErrPlain id (entryMessage entry)) errs (rangeMap m) ∧
    Error <$> errs ≡ₚ (λ entry, Some (entryMessage entry)) <$> map_to_list m ∧
    (∀ errStr count,
       m !! errStr = Some count →
       ((1 < count)%Z →
          entryMessage (errStr, count)
          = errStr +:+ " (repeated " +:+ pretty count +:+ " times)") ∧
       ((count ≤ 1)%Z → entryMessage (errStr, count) = errStr)).
Proof.
  exists (imap (λ i entry, ErrPlain (next + i) (entryMessage entry)) (rangeMap m)).
  assert (Hlen : length (imap (λ i entry, ErrPlain (next + i) (entryMessage entry))
                          (rangeMap m)) = size m).
  { rewrite length_imap, rangeMap_perm. apply length_map_to_list. }
  split; [ | split; [ | split; [done | split; [ | split; [ | split]]]]].
  - unfold CreateAggregateFromMessageCountMap. by rewrite foldl_entries.
  - intros Hne. unfold CreateAggregateFromMessageCountMap. rewrite foldl_entries.
    simpl. rewrite NewAggregate_nonNil, nonNil_id.
    + revert Hlen. destruct (imap _ (rangeMap m)); [ | done].
      simpl. intros Hlen. symmetry in Hlen.
      by apply map_size_empty_iff in Hlen.
    + apply Forall_forall. intros e [i [entry [-> _]]]%elem_of_lookup_imap. done.
  - apply NoDup_alt. intros i j e Hi Hj.
    apply list_lookup_imap_Some in Hi as [x [_ Hx]].
    apply list_lookup_imap_Some in Hj as [y [_ Hy]].
    rewrite Hx in Hy. injection Hy. lia.
  - apply (imap_entries_Forall2 (rangeMap m) (λ i, next + i)).
  - rewrite (imap_entries_Error (rangeMap m) (λ i, next + i)).
    by rewrite rangeMap_perm.
  - intros errStr count _. unfold entryMessage.
    split; intros Hc; case_bool_decide; (done || lia).
Qed.
End RangeMapSpec.

Example CreateAggregateFromMessageCountMap_example :
  CreateAggregateFromMessageCountMap map_to_list 5
    (Some {[ "disk full" := 3%Z; "timeout" := 1%Z ]})
  = Agg aggregate [ErrPlain 5 "disk full (repeated 3 times)"; ErrPlain 6 "timeout"]
  ∨
  CreateAggregateFromMessageCountMap map_to_list 5
    (Some {[ "disk full" := 3%Z; "timeout" := 1%Z ]})
  = Agg aggregate [ErrPlain 5 "timeout"; ErrPlain 6 "disk full (repeated 3 times)"].
Proof. vm_compute. tauto. Qed.

Lemma CreateAggregateFromMessageCountMap_spec_witness :
  ∃ errs,
    CreateAggregateFromMessageCountMap map_to_list 0 (Some {[ "disk full" := 3%Z ]})
    = Agg aggregate errs ∧
    length errs = 1.
Proof.
  destruct (CreateAggregateFromMessageCountMap_spec map_to_list
              (λ m, reflexivity (map_to_list m)) 0 {[ "disk full" := 3%Z ]})
    as (errs & _ & Hagg & Hlen & _).
  exists errs. split.
  - apply Hagg. apply insert_non_empty.
  - rewrite Hlen. apply map_size_singleton.
Defined.

(** ** String sets *)

Section SetsSpec.
Import Sets.
Variable rangeKeys : gset string → list string.
Hypothesis rangeKeys_perm : ∀ s, rangeKeys s ≡ₚ elements s.

Lemma contents_insert_ne (h : heap) (l : positive) (t : gset string) (s : String) :
  s ≠ Some l → contents (<[l := t]> h) s = contents h s.
Proof.
  intros Hne. destruct s as [l' | ]; [ | done]. simpl.
  rewrite lookup_insert_ne; [done | congruence].
Qed.

Lemma contents_insert_eq (h : heap) (l : positive) (t : gset string) :
  contents (<[l := t]> h) (Some l) = t.
Proof. simpl. by rewrite lookup_insert_eq. Qed.

Lemma valid_fresh (h : heap) (s : String) : valid h s → s ≠ Some (fresh (dom h)).
Proof.
  intros Hv ->. simpl in Hv. by apply is_fresh in Hv.
Qed.

Lemma NewString_empty (h : heap) :
  NewString [] h = Some (Some (fresh (dom h)), <[fresh (dom h) := ∅]> h).
Proof. reflexivity. Qed.

(** The loop of [Intersection], for a result table that is neither
    operand. *)
Lemma Intersection_range (h0 : heap) (l : positive) (other : String) (keys : list string) :
  other ≠ Some l →
  ∀ acc : gset string,
    (fix range (keys : list string) (h : heap) {struct keys} :=
       match keys with
       | [] => Some (Some l, h)
       | key :: keys =>
           if Has other key h then
             match Insert (Some l) [key] h with
             | None => None
             | Some (_, h) => range keys h
             end
           else range keys h
       end) keys (<[l := acc]> h0)
    = Some (Some l,
            <[l := acc ∪ list_to_set (filter (λ k, k ∈ contents h0 other) keys)]> h0).
Proof.
  intros Hne. induction keys as [ | key keys IH]; intros acc.
  - simpl. do 3 f_equal. set_solver.
  - cbn [Has]. unfold Has at 1. rewrite contents_insert_ne by done.
    case_bool_decide as Hin.
    + rewrite filter_cons_True by done.
      cbn [Insert assign]. rewrite contents_insert_eq, insert_insert_eq, IH.
      do 3 f_equal. set_solver.
    + rewrite filter_cons_False by done. apply IH.
Qed.

Lemma filter_elements_intersection (walk other : gset string) :
  list_to_set (filter (λ k, k ∈ other) (rangeKeys walk)) =@{gset string} walk ∩ other.
Proof.
  apply set_eq. intros k.
  rewrite elem_of_list_to_set, list_elem_of_filter, rangeKeys_perm, elem_of_elements.
  set_solver.
Qed.

Lemma Intersection_result (h : heap) (s s2 : String) :
  valid h s → valid h s2 →
  Intersection rangeKeys s s2 h
  = Some (Some (fresh (dom h)),
          <[fresh (dom h) := contents h s ∩ contents h s2]> h).
Proof.
  intros Hs Hs2. apply valid_fresh in Hs, Hs2.
  unfold Intersection. rewrite NewString_empty.
  unfold Len. rewrite !contents_insert_ne by done.
  case_bool_decide.
  - rewrite Intersection_range by done. rewrite filter_elements_intersection.
    by rewrite contents_insert_ne, (left_id_L ∅ (∪)) by done.
  - rewrite Intersection_range by done. rewrite filter_elements_intersection.
    by rewrite contents_insert_ne, (left_id_L ∅ (∪)), (comm_L (∩)) by done.
Qed.

Lemma IsSuperset_subseteq (h : heap) (s s2 : String) :
  IsSuperset rangeKeys s s2 h = true ↔ contents h s2 ⊆ contents h s.
Proof.
  unfold IsSuperset.
  assert (H : ∀ items,
    (fix range (items : list string) {struct items} :=
       match items with
       | [] => true
       | item :: items => if negb (Has s item h) then false else range items
       end) items = true ↔ ∀ k, k ∈ items → k ∈ contents h s).
  { induction items as [ | item items IH]; simpl.
    - split; [ | done]. by intros _ k ?%elem_of_nil.
    - unfold Has at 1. case_bool_decide as Hin; simpl.
      + rewrite IH. split.
        * intros Hall k [-> | Hk]%elem_of_cons; auto.
        * intros Hall k Hk. apply Hall. by right.
      + split; [done | ]. intros Hall. exfalso. apply Hin, Hall. by left. }
  rewrite H. split.
  - intros Hall k Hk. apply Hall. by rewrite rangeKeys_perm, elem_of_elements.
  - intros Hsub k Hk. apply Hsub. by rewrite rangeKeys_perm, elem_of_elements in Hk.
Qed.

Lemma Equal_contents (h : heap) (s s2 : String) :
  Equal rangeKeys s s2 h = true ↔ contents h s = contents h s2.
Proof.
  unfold Equal, Len. rewrite andb_true_iff, bool_decide_eq_true, IsSuperset_subseteq.
  split.
  - intros [Hsize Hsub]. symmetry. apply set_eq.
    apply set_subseteq_size_equiv; [done | lia].
  - intros ->. done.
Qed.

(** C9.  On operands that are valid in the heap, [a.Intersection(b)]
    returns a table allocated by the call, which holds the keys common to
    both operands, and leaves every table the heap already held as it was;
    [b.Intersection(a)], evaluated next, does the same, and [Equal] finds
    the two results equal. *)
Theorem Intersection_commutative (h : heap) (a b : String) :
  valid h a → valid h b →
  ∃ l h1 l' h2,
    Intersection rangeKeys a b h = Some (Some l, h1) ∧
    (l ∉ dom h) ∧
    (∀ r, r ∈ dom h → h1 !! r = h !! r) ∧
    contents h1 a = contents h a ∧
    contents h1 b = contents h b ∧
    contents h1 (Some l) = contents h a ∩ contents h b ∧
    Intersection rangeKeys b a h1 = Some (Some l', h2) ∧
    (l' ∉ dom h1) ∧
    (∀ r, r ∈ dom h1 → h2 !! r = h1 !! r) ∧
    contents h2 a = contents h a ∧
    contents h2 b = contents h b ∧
    contents h2 (Some l') = contents h b ∩ contents h a ∧
    Equal rangeKeys (Some l) (Some l') h2 = true.
Proof.
  intros Ha Hb.
  set (l := fresh (dom h)).
  set (h1 := <[l := contents h a ∩ contents h b]> h).
  set (l' := fresh (dom h1)).
  set (h2 := <[l' := contents h1 b ∩ contents h1 a]> h1).
  assert (Hl : l ∉ dom h) by apply is_fresh.
  assert (Hl' : l' ∉ dom h1) by apply is_fresh.
  assert (Ha1 : valid h1 a).
  { destruct a as [r | ]; [ | done]. simpl in *. subst h1.
    rewrite dom_insert. set_solver. }
  assert (Hb1 : valid h1 b).
  { destruct b as [r | ]; [ | done]. simpl in *. subst h1.
    rewrite dom_insert. set_solver. }
  assert (Hca : contents h1 a = contents h a).
  { apply contents_insert_ne. by apply valid_fresh. }
  assert (Hcb : contents h1 b = contents h b).
  { apply contents_insert_ne. by apply valid_fresh. }
  exists l, h1, l', h2.
  split; [by apply Intersection_result | ].
  split; [done | ].
  split; [intros r Hr; apply lookup_insert_ne; by intros <- | ].
  split; [done | ]. split; [done | ].
  split; [apply contents_insert_eq | ].
  split; [by apply Intersection_result | ].
  split; [done | ].
  split; [intros r Hr; apply lookup_insert_ne; by intros <- | ].
  split; [subst h2; rewrite contents_insert_ne by (by apply valid_fresh); done | ].
  split; [subst h2; rewrite contents_insert_ne by (by apply valid_fresh); done | ].
  split; [subst h2; rewrite contents_insert_eq; by rewrite Hca, Hcb | ].
  apply Equal_contents. subst h2. rewrite contents_insert_eq.
  rewrite contents_insert_ne.
  - subst h1. rewrite contents_insert_eq. rewrite Hca, Hcb. set_solver.
  - intros [= Heq]. apply Hl'. rewrite <- Heq. subst h1.
    rewrite dom_insert. set_solver.
Qed.
End SetsSpec.

Lemma Intersection_commutative_witness :
  ∃ l h1 l' h2,
    Sets.Intersection elements (Some 1%positive) (Some 2%positive)
      {[ 1%positive := {[ "a"; "b" ]}; 2%positive := {[ "b"; "c" ]} ]}
    = Some (Some l, h1) ∧
    Sets.Intersection elements (Some 2%positive) (Some 1%positive) h1
    = Some (Some l', h2) ∧
    Sets.Equal elements (Some l) (Some l') h2 = true.
Proof.
  destruct (Intersection_commutative elements (λ s, reflexivity (elements s))
              {[ 1%positive := {[ "a"; "b" ]}; 2%positive := {[ "b"; "c" ]} ]}
              (Some 1%positive) (Some 2%positive))
    as (l & h1 & l' & h2 & H1 & _ & _ & _ & _ & _ & H2 & _ & _ & _ & _ & _ & Heq).
  - unfold valid. apply elem_of_dom. by eexists.
  - unfold valid. apply elem_of_dom. by eexists.
  - by exists l, h1, l', h2.
Defined.

(** ** AggregateGoroutines *)

Lemma sentBy_cons x ws :
  sentBy (x :: ws) = match x with Done e => e :: sentBy ws | _ => sentBy ws end.
Proof. by destruct x. Qed.

Lemma sentBy_insert_unsent ws : ∀ k w w',
  ws !! k = Some w → unsent w → unsent w' → sentBy (<[k := w']> ws) = sentBy ws.
Proof.
  induction ws as [ | x ws IH]; intros [ | k] w w' Hk Hw Hw'; try done.
  - injection Hk as ->. change (sentBy (w' :: ws) = sentBy (w :: ws)).
    rewrite !sentBy_cons.
    destruct w as [ | | e | e]; [ | | | by destruct (Hw e)];
      (destruct w' as [ | | e' | e']; [done | done | done | by destruct (Hw' e')]).
  - change (sentBy (x :: <[k := w']> ws) = sentBy (x :: ws)).
    rewrite !sentBy_cons. by rewrite (IH k w w').
Qed.

Lemma sentBy_insert_Done ws : ∀ k w e,
  ws !! k = Some w → unsent w → sentBy (<[k := Done e]> ws) ≡ₚ e :: sentBy ws.
Proof.
  induction ws as [ | x ws IH]; intros [ | k] w e Hk Hw; try done.
  - injection Hk as ->. change (sentBy (Done e :: ws) ≡ₚ e :: sentBy (w :: ws)).
    rewrite !sentBy_cons.
    destruct w as [ | | e' | e']; [done | done | done | by destruct (Hw e')].
  - change (sentBy (x :: <[k := Done e]> ws) ≡ₚ e :: sentBy (x :: ws)).
    rewrite !sentBy_cons. specialize (IH k w e Hk Hw).
    destruct x as [ | | e' | e']; [done | done | done | ].
    rewrite IH. apply perm_swap.
Qed.

Lemma length_sentBy ws : length (sentBy ws) ≤ length ws.
Proof.
  induction ws as [ | x ws IH]; [done | ].
  rewrite sentBy_cons. destruct x; simpl; lia.
Qed.

Lemma length_sentBy_unsent ws : ∀ k w,
  ws !! k = Some w → unsent w → length (sentBy ws) < length ws.
Proof.
  induction ws as [ | x ws IH]; intros [ | k] w Hk Hw; try done.
  - injection Hk as ->. pose proof (length_sentBy ws) as Hle. rewrite sentBy_cons.
    destruct w as [ | | e | e]; simpl; [lia | lia | lia | by destruct (Hw e)].
  - specialize (IH k w Hk Hw). rewrite sentBy_cons.
    destruct x; simpl; lia.
Qed.

Lemma sentBy_find_unsent ws :
  length (sentBy ws) < length ws → ∃ k w, ws !! k = Some w ∧ unsent w.
Proof.
  induction ws as [ | x ws IH]; [simpl; lia | ].
  rewrite sentBy_cons. destruct x as [ | | e | e].
  - intros _. by exists 0, Idle.
  - intros _. by exists 0, Running.
  - intros _. by exists 0, (Returned e).
  - simpl. intros Hlt.
    destruct IH as (k & w & Hk & Hw); [lia | ]. by exists (S k), w.
Qed.

Lemma sentBy_all ws (funcs : list error) :
  length ws = length funcs →
  length (sentBy ws) = length ws →
  (∀ k e, ws !! k = Some (Done e) → funcs !! k = Some e) →
  ws = Done <$> funcs ∧ sentBy ws = funcs.
Proof.
  revert funcs. induction ws as [ | x ws IH]; intros [ | f funcs] Hlen Hall Hf; try done.
  pose proof (length_sentBy ws) as Hle. rewrite sentBy_cons in *.
  destruct x as [ | | e | e]; simpl in *; [lia | lia | lia | ].
  assert (e = f) as ->.
  { specialize (Hf 0 e eq_refl). simpl in Hf. congruence. }
  destruct (IH funcs) as [Hws Hs]; [lia | lia | | ].
  - intros k e Hk. apply (Hf (S k) e Hk).
  - split; f_equal; done.
Qed.

Lemma rank_insert ws : ∀ k w w',
  ws !! k = Some w →
  sum_list (rank <$> <[k := w']> ws) + rank w = sum_list (rank <$> ws) + rank w'.
Proof.
  induction ws as [ | x ws IH]; intros [ | k] w w' Hk; try done.
  - injection Hk as ->. simpl. lia.
  - specialize (IH k w w' Hk).
    change (rank x + sum_list (rank <$> <[k := w']> ws) + rank w
            = rank x + sum_list (rank <$> ws) + rank w').
    lia.
Qed.

Lemma sentBy_replicate_Idle n : sentBy (replicate n Idle) = [].
Proof. induction n as [ | n IH]; [done | ]. simpl replicate. by rewrite sentBy_cons. Qed.

Lemma nonNil_snoc got e :
  nonNil (got ++ [e]) = if isNil e then nonNil got else nonNil got ++ [e].
Proof.
  unfold nonNil. rewrite filter_app. destruct e.
  - rewrite filter_cons_False by (simpl; tauto). apply app_nil_r.
  - by rewrite filter_cons_True by (simpl; tauto).
  - by rewrite filter_cons_True by (simpl; tauto).
Qed.

Section AggregateGoroutinesSpec.
Variable funcs : list error.

Lemma invariant_start : invariant funcs (start funcs).
Proof.
  unfold invariant, start. simpl. split_and!.
  - apply length_replicate.
  - lia.
  - intros k _ Hk. by apply lookup_replicate_2.
  - intros k Hk. lia.
  - intros k e [Hk | Hk]; apply lookup_replicate in Hk as [? _]; done.
  - lia.
  - exists []. by rewrite sentBy_replicate_Idle.
  - done.
Qed.

Lemma invariant_step s s' : invariant funcs s → step funcs s s' → invariant funcs s'.
Proof.
  intros (Hlen & Hl & Hidle & Hbusy & Hval & Hrecv & (got & Herrs & Hgot & Hperm) & Hret) Hstep.
  destruct Hstep as [ws ch l Hlt | ws ch l i errs k e Hk Hf | ws ch l i errs k e Hk Hcap
                    | ws ch i errs e Hi | ws ch i errs Hi];
    unfold invariant; simpl in *.
  - (* go *)
    assert (Hwl : ws !! l = Some Idle) by (apply Hidle; lia).
    split_and!.
    + by rewrite length_insert.
    + lia.
    + intros k Hk1 Hk2. rewrite list_lookup_insert_ne by lia. apply Hidle; lia.
    + intros k Hk1. destruct (decide (k = l)) as [-> | Hne].
      * rewrite list_lookup_insert_eq by lia. done.
      * rewrite list_lookup_insert_ne by done. apply Hbusy. lia.
    + intros k e. destruct (decide (k = l)) as [-> | Hne].
      * rewrite list_lookup_insert_eq by lia. by intros [? | ?].
      * rewrite list_lookup_insert_ne by done. apply Hval.
    + lia.
    + exists got. by rewrite (sentBy_insert_unsent ws l Idle Running).
    + done.
  - (* the call of the function *)
    assert (Hkl : k < length ws) by (by apply lookup_lt_Some in Hk).
    split_and!.
    + by rewrite length_insert.
    + done.
    + intros k' Hk1 Hk2. destruct (decide (k' = k)) as [-> | Hne].
      * rewrite (Hidle k Hk1 Hk2) in Hk. done.
      * rewrite list_lookup_insert_ne by done. by apply Hidle.
    + intros k' Hk1. destruct (decide (k' = k)) as [-> | Hne].
      * rewrite list_lookup_insert_eq by done. done.
      * rewrite list_lookup_insert_ne by done. by apply Hbusy.
    + intros k' e'. destruct (decide (k' = k)) as [-> | Hne].
      * rewrite list_lookup_insert_eq by done. intros [[= <-] | ?]; done.
      * rewrite list_lookup_insert_ne by done. apply Hval.
    + done.
    + exists got. by rewrite (sentBy_insert_unsent ws k Running (Returned e)).
    + done.
  - (* the send *)
    assert (Hkl : k < length ws) by (by apply lookup_lt_Some in Hk).
    split_and!.
    + by rewrite length_insert.
    + done.
    + intros k' Hk1 Hk2. destruct (decide (k' = k)) as [-> | Hne].
      * rewrite (Hidle k Hk1 Hk2) in Hk. done.
      * rewrite list_lookup_insert_ne by done. by apply Hidle.
    + intros k' Hk1. destruct (decide (k' = k)) as [-> | Hne].
      * rewrite list_lookup_insert_eq by done. done.
      * rewrite list_lookup_insert_ne by done. by apply Hbusy.
    + intros k' e'. destruct (decide (k' = k)) as [-> | Hne].
      * rewrite list_lookup_insert_eq by done.
        intros [? | [= <-]]; [done | ]. apply Hval. by left.
      * rewrite list_lookup_insert_ne by done. apply Hval.
    + done.
    + exists got. split; [done | ]. split; [done | ].
      rewrite (sentBy_insert_Done ws k (Returned e) e) by done.
      rewrite <- Hperm, app_assoc. by rewrite <- Permutation_cons_append.
    + done.
  - (* the receive *)
    split_and!; try done.
    exists (got ++ [e]). split; [ | split].
    + rewrite nonNil_snoc, <- Herrs. by destruct (isNil e).
    + rewrite length_app. simpl. lia.
    + by rewrite <- Hperm, <- app_assoc.
  - (* the return *)
    split_and!; try done.
    + by exists got.
    + intros agg [= <-]. split; [done | ]. split; [ | done].
      assert (length (got ++ ch) ≤ length funcs).
      { rewrite Hperm, <- Hlen. apply length_sentBy. }
      rewrite length_app in *. unfold capacity in Hi. lia.
Qed.

Lemma invariant_reachable s : rtc (step funcs) (start funcs) s → invariant funcs s.
Proof.
  revert s. apply rtc_ind_r.
  - apply invariant_start.
  - intros y z _ Hstep IH. by apply invariant_step with y.
Qed.

(** A state from which the function has not returned can take a step. *)
Lemma step_progress s :
  invariant funcs s → returned s = None → ∃ s', step funcs s s'.
Proof.
  intros (Hlen & Hl & Hidle & Hbusy & Hval & Hrecv & (got & Herrs & Hgot & Hperm) & Hret).
  destruct s as [ws ch l i errs ret]. simpl in *. intros ->.
  destruct (decide (l < length funcs)) as [Hlt | Hge].
  - assert (i = 0) as -> by lia.
    destruct got; [ | done]. simpl in Herrs. subst errs.
    eexists. by apply step_go.
  - assert (l = length funcs) as -> by lia.
    destruct (decide (i < capacity funcs)) as [Hi | Hi]; [ | eexists; by apply step_return].
    destruct ch as [ | e ch]; [ | eexists; by apply step_receive].
    rewrite app_nil_r in Hperm.
    destruct (sentBy_find_unsent ws) as (k & w & Hk & Hw).
    { rewrite <- Hperm, Hgot, Hlen. exact Hi. }
    assert (Hkl : k < length funcs).
    { rewrite <- Hlen. by apply lookup_lt_Some in Hk. }
    destruct w as [ | | e | e].
    + by destruct (Hbusy k Hkl).
    + destruct (lookup_lt_is_Some_2 funcs k Hkl) as [e He].
      eexists. eapply step_call; eassumption.
    + eexists. apply step_send; [done | ]. unfold capacity. simpl. lia.
    + by destruct (Hw e).
Qed.

(** Every step uses up fuel. *)
Lemma step_fuel s s' :
  invariant funcs s → step funcs s s' → fuel funcs s' < fuel funcs s.
Proof.
  intros (Hlen & Hl & Hidle & Hbusy & Hval & Hrecv & _) Hstep.
  destruct Hstep as [ws ch l Hlt | ws ch l i errs k e Hk Hf | ws ch l i errs k e Hk Hcap
                    | ws ch i errs e Hi | ws ch i errs Hi];
    unfold fuel; simpl in *.
  - assert (Hwl : ws !! l = Some Idle) by (apply Hidle; lia).
    pose proof (rank_insert ws l Idle Running Hwl) as Hr. simpl in Hr. lia.
  - pose proof (rank_insert ws k Running (Returned e) Hk) as Hr. simpl in Hr. lia.
  - pose proof (rank_insert ws k (Returned e) (Done e) Hk) as Hr. simpl in Hr. lia.
  - unfold capacity in Hi. lia.
  - lia.
Qed.

Lemma nsteps_fuel k : ∀ s s',
  invariant funcs s → nsteps (step funcs) k s s' → k + fuel funcs s' ≤ fuel funcs s.
Proof.
  induction k as [ | k IH]; intros s s' Hinv Hsteps.
  - inversion Hsteps; subst. lia.
  - inversion Hsteps as [ | ? ? y ? Hstep Hrest]; subst.
    pose proof (step_fuel s y Hinv Hstep).
    pose proof (IH y s' (invariant_step s y Hinv Hstep) Hrest). lia.
Qed.

Lemma fuel_start : fuel funcs (start funcs) = 4 * length funcs + 1.
Proof.
  unfold fuel, start. simpl.
  assert (H : ∀ n, sum_list (rank <$> replicate n Idle) = 3 * n).
  { induction n as [ | n IHn]; [done | ].
    change (3 + sum_list (rank <$> replicate n Idle) = 3 * S n). lia. }
  rewrite H. lia.
Qed.

(** Steps can be taken until the function returns. *)
Lemma run_to_return : ∀ n s,
  fuel funcs s ≤ n → invariant funcs s →
  ∃ s' agg, rtc (step funcs) s s' ∧ returned s' = Some agg.
Proof.
  induction n as [ | n IH]; intros s Hfuel Hinv.
  - destruct (returned s) as [agg | ] eqn:Hret; [by exists s, agg | ].
    unfold fuel in Hfuel. rewrite Hret in Hfuel. lia.
  - destruct (returned s) as [agg | ] eqn:Hret; [by exists s, agg | ].
    destruct (step_progress s Hinv Hret) as [y Hstep].
    pose proof (step_fuel s y Hinv Hstep).
    destruct (IH y) as (s' & agg & Hrtc & Hagg);
      [lia | by apply invariant_step with s | ].
    exists s', agg. split; [by apply rtc_l with y | done].
Qed.

(** What holds when the function has returned. *)
Lemma returned_all s agg :
  invariant funcs s → returned s = Some agg →
  workers s = Done <$> funcs ∧ errChan s = [] ∧ received s = length funcs ∧
  ∃ order, order ≡ₚ funcs ∧ collected s = nonNil order ∧ agg = NewAggregate order.
Proof.
  intros (Hlen & Hl & Hidle & Hbusy & Hval & Hrecv & (got & Herrs & Hgot & Hperm) & Hret) Hagg.
  destruct (Hret agg Hagg) as (-> & Hi & _).
  pose proof (length_sentBy (workers s)) as Hle.
  assert (Hsum : length got + length (errChan s) = length (sentBy (workers s))).
  { by rewrite <- Hperm, length_app. }
  assert (Hch : errChan s = []).
  { destruct (errChan s); [done | simpl in Hsum; lia]. }
  rewrite Hch, app_nil_r in Hperm.
  destruct (sentBy_all (workers s) funcs) as [Hws Hsent]; [done | lia | | ].
  { intros k e Hk. apply Hval. by right. }
  split; [done | ]. split; [done | ]. split; [done | ].
  exists got. split; [by rewrite Hperm, Hsent | ]. split; [done | ].
  by rewrite Herrs, !NewAggregate_nonNil, nonNil_idemp.
Qed.

Lemma nonNil_perm (l1 l2 : list error) : l1 ≡ₚ l2 → nonNil l1 ≡ₚ nonNil l2.
Proof. intros H. unfold nonNil. by rewrite H. Qed.

(** C7.  Whatever the interleaving of the goroutines and the caller:
    the function returns, after at most [4 * len(funcs) + 1] steps; a
    goroutine that holds the value of its function can send it, the buffer
    being as large as the number of functions; when the function returns,
    every function has been called and has returned, its value has been
    sent and received, and nothing is left in the channel; the value
    returned is what [NewAggregate] makes of the values of the functions in
    the order received, so that it is nil when every function returned nil,
    and otherwise an aggregate of all the non-nil errors returned. *)
Theorem AggregateGoroutines_spec :
  (∃ agg, AggregateGoroutines funcs agg) ∧
  (∀ s, rtc (step funcs) (start funcs) s → returned s = None →
        ∃ s', step funcs s s') ∧
  (∀ k s, nsteps (step funcs) k (start funcs) s → k ≤ 4 * length funcs + 1) ∧
  (∀ s k e, rtc (step funcs) (start funcs) s →
            workers s !! k = Some (Returned e) →
            length (errChan s) < capacity funcs) ∧
  (∀ s agg, rtc (step funcs) (start funcs) s → returned s = Some agg →
            workers s = Done <$> funcs ∧ errChan s = [] ∧
            received s = length funcs ∧
            ∃ order, order ≡ₚ funcs ∧ collected s = nonNil order ∧
                     agg = NewAggregate order) ∧
  (∀ agg, AggregateGoroutines funcs agg →
          (Forall (λ e, e = ErrNil) funcs → agg = AggNil) ∧
          (¬ Forall (λ e, e = ErrNil) funcs →
             ∃ errs, agg = Agg aggregate errs ∧ errs ≡ₚ nonNil funcs)).
Proof.
  split; [ | split; [ | split; [ | split; [ | split]]]].
  - destruct (run_to_return (fuel funcs (start funcs)) (start funcs))
      as (s & agg & Hrtc & Hagg); [done | apply invariant_start | ].
    exists agg, s. done.
  - intros s Hrtc Hret. apply step_progress; [ | done]. by apply invariant_reachable.
  - intros k s Hsteps. rewrite <- fuel_start.
    pose proof (nsteps_fuel k _ _ invariant_start Hsteps). lia.
  - intros s k e Hrtc Hk.
    destruct (invariant_reachable s Hrtc)
      as (Hlen & _ & _ & _ & _ & _ & (got & _ & _ & Hperm) & _).
    pose proof (length_sentBy_unsent (workers s) k (Returned e) Hk) as Hlt.
    assert (length (got ++ errChan s) = length (sentBy (workers s))) as Hsum
      by (by rewrite Hperm).
    rewrite length_app in Hsum. unfold capacity. rewrite <- Hlen.
    assert (Hu : unsent (Returned e)) by done. specialize (Hlt Hu). lia.
  - intros s agg Hrtc Hagg. apply returned_all; [ | done]. by apply invariant_reachable.
  - intros agg (s & Hrtc & Hagg).
    destruct (returned_all s agg (invariant_reachable s Hrtc) Hagg)
      as (_ & _ & _ & order & Hperm & _ & ->).
    apply nonNil_perm in Hperm. rewrite NewAggregate_nonNil. split.
    + intros Hnil%nonNil_all_nil. rewrite Hnil in Hperm.
      apply Permutation_nil_r in Hperm. by rewrite Hperm.
    + intros Hsome. rewrite nonNil_all_nil in Hsome.
      destruct (nonNil order) as [ | e l] eqn:Ho.
      * symmetry in Hperm. by apply Permutation_nil_r in Hperm.
      * by exists (e :: l).
Qed.
End AggregateGoroutinesSpec.

Lemma AggregateGoroutines_spec_witness :
  ∃ agg, AggregateGoroutines [ErrNil; ErrPlain 2 "f2 failed"; ErrNil] agg ∧
         agg = Agg aggregate [ErrPlain 2 "f2 failed"].
Proof.
  destruct (AggregateGoroutines_spec [ErrNil; ErrPlain 2 "f2 failed"; ErrNil])
    as ([agg Hagg] & _ & _ & _ & _ & Hres).
  exists agg. split; [done | ].
  destruct (Hres agg Hagg) as [_ Hsome].
  destruct Hsome as (errs & -> & Hperm).
  - intros Hall. inversion Hall as [ | ? ? _ Hrest]. inversion Hrest. done.
  - f_equal. by apply Permutation_singleton_r in Hperm.
Defined.

(** ** Other implementations of Aggregate

    What the functions do with an Aggregate that is not the package's own,
    which the constructor of the package never makes. *)

(** X2.  [FilterOut] always answers in the package's own type: without matchers
    an Aggregate of another implementation comes back as the package's
    aggregate of the same elements, and an Aggregate without elements comes
    back as nil. *)
Lemma FilterOut_custom_rebuilt id msg errs fns :
  FilterOut (ErrAgg (custom id msg) []) fns = ErrNil ∧
  (errs ≠ [] → Forall isLeaf errs →
   FilterOut (ErrAgg (custom id msg) errs) [] = ErrAgg aggregate errs).
Proof.
  split; [done | ]. intros Hne Hleaf.
  rewrite FilterOut_aggregate, filterErrors_nonNil, NewAggregate_nonNil, nonNil_idemp.
  assert (Hmap : map (λ e, FilterOut e []) errs = errs).
  { clear Hne. induction Hleaf as [ | e errs [Hn Ha] _ IH]; [done | ].
    simpl. rewrite IH. by destruct e. }
  rewrite Hmap, isLeaf_nonNil by done. by destruct errs.
Qed.

Lemma FilterOut_custom_rebuilt_witness :
  FilterOut (ErrAgg (custom 9 "outer") [ErrPlain 1 "a"]) []
  = ErrAgg aggregate [ErrPlain 1 "a"].
Proof.
  apply (FilterOut_custom_rebuilt 9 "outer" [ErrPlain 1 "a"] []); [done | ].
  by repeat constructor.
Defined.

(** X3.  [Flatten] of an Aggregate in which no leaf is nested is nil. *)
Lemma Flatten_no_leaf k errs : leaves errs = [] → Flatten (Agg k errs) = AggNil.
Proof. intros Hl. by rewrite Flatten_leaves, Hl. Qed.

Lemma Flatten_no_leaf_witness :
  Flatten (Agg aggregate [ErrAgg (custom 9 "outer") []]) = AggNil.
Proof. by apply Flatten_no_leaf. Defined.

(** ** String sets: the other methods *)

Section SetsOps.
Import Sets.

Lemma valid_lookup (h : heap) (l : positive) :
  valid h (Some l) → h !! l = Some (contents h (Some l)).
Proof.
  unfold valid. intros [t Ht]%elem_of_dom. simpl. by rewrite Ht.
Qed.

Lemma valid_insert (h : heap) (l : positive) (t : gset string) (s : String) :
  valid h s → valid (<[l := t]> h) s.
Proof.
  destruct s as [r | ]; [ | done]. unfold valid. rewrite dom_insert. set_solver.
Qed.

Lemma valid_insert_eq (h : heap) (l : positive) (t : gset string) :
  valid (<[l := t]> h) (Some l).
Proof. unfold valid. rewrite dom_insert. set_solver. Qed.

Lemma Insert_insert (l : positive) (items : list string) : ∀ (acc : gset string) (h0 : heap),
  Insert (Some l) items (<[l := acc]> h0)
  = Some (Some l, <[l := acc ∪ list_to_set items]> h0).
Proof.
  induction items as [ | item items IH]; intros acc h0.
  - simpl. by rewrite (right_id_L ∅ (∪)).
  - cbn [Insert assign]. rewrite contents_insert_eq, insert_insert_eq, IH.
    do 3 f_equal. rewrite list_to_set_cons. set_solver.
Qed.

Lemma Insert_valid (h : heap) (l : positive) (items : list string) :
  valid h (Some l) →
  Insert (Some l) items h
  = Some (Some l, <[l := contents h (Some l) ∪ list_to_set items]> h).
Proof.
  intros Hv%valid_lookup.
  rewrite <- (insert_id h l _ Hv) at 1. apply Insert_insert.
Qed.

Lemma NewString_result (h : heap) (items : list string) :
  NewString items h
  = Some (Some (fresh (dom h)), <[fresh (dom h) := list_to_set items]> h).
Proof.
  unfold NewString. by rewrite Insert_insert, (left_id_L ∅ (∪)).
Qed.

Lemma size_list_to_set_le (items : list string) :
  size (list_to_set items : gset string) ≤ length items.
Proof.
  induction items as [ | item items IH]; [done | ].
  rewrite list_to_set_cons, size_union_alt, size_singleton. simpl.
  pose proof (subseteq_size (list_to_set items ∖ {[item]})
                (list_to_set items : gset string)) as Hle.
  assert (list_to_set items ∖ {[item]} ⊆ (list_to_set items : gset string)) as Hsub
    by set_solver.
  specialize (Hle Hsub). lia.
Qed.

Lemma HasAll_forall (s : String) (items : list string) (h : heap) :
  HasAll s items h = true ↔ ∀ item, item ∈ items → item ∈ contents h s.
Proof.
  induction items as [ | item items IH]; simpl.
  - split; [ | done]. by intros _ item ?%elem_of_nil.
  - unfold Has at 1. case_bool_decide as Hin; simpl.
    + rewrite IH. split.
      * intros Hall k [-> | Hk]%elem_of_cons; auto.
      * intros Hall k Hk. apply Hall. by right.
    + split; [done | ]. intros Hall. exfalso. apply Hin, Hall. by left.
Qed.

Lemma HasAny_exists (s : String) (items : list string) (h : heap) :
  HasAny s items h = true ↔ ∃ item, item ∈ items ∧ item ∈ contents h s.
Proof.
  induction items as [ | item items IH]; simpl.
  - split; [done | ]. by intros [item [?%elem_of_nil _]].
  - unfold Has at 1. case_bool_decide as Hin; simpl.
    + split; [ | done]. intros _. exists item. split; [by left | done].
    + rewrite IH. split.
      * intros [k [Hk Hks]]. exists k. split; [by right | done].
      * intros [k [[-> | Hk]%elem_of_cons Hks]]; [done | eauto].
Qed.

(** X4.  [NewString(items...)] returns a table that the call allocates: its
    address is not one the heap held, its members are exactly the items
    (an item given twice is held once), and every table the heap held is
    as it was. *)
Theorem NewString_spec (h : heap) (items : list string) :
  ∃ l h',
    NewString items h = Some (Some l, h') ∧
    (l ∉ dom h) ∧
    contents h' (Some l) = list_to_set items ∧
    (∀ item, Has (Some l) item h' = true ↔ item ∈ items) ∧
    HasAll (Some l) items h' = true ∧
    Len (Some l) h' ≤ length items ∧
    (NoDup items → Len (Some l) h' = length items) ∧
    (∀ r, r ∈ dom h → h' !! r = h !! r).
Proof.
  exists (fresh (dom h)), (<[fresh (dom h) := list_to_set items]> h).
  assert (Hfresh : fresh (dom h) ∉ dom h) by apply is_fresh.
  split; [apply NewString_result | ]. split; [done | ].
  split; [apply contents_insert_eq | ].
  split; [ | split; [ | split; [ | split]]].
  - intros item. unfold Has. rewrite contents_insert_eq, bool_decide_eq_true.
    apply elem_of_list_to_set.
  - apply HasAll_forall. intros item Hin. rewrite contents_insert_eq.
    by apply elem_of_list_to_set.
  - unfold Len. rewrite contents_insert_eq. apply size_list_to_set_le.
  - intros Hnd. unfold Len. rewrite contents_insert_eq. by apply size_list_to_set.
  - intros r Hr. apply lookup_insert_ne. by intros <-.
Qed.

Lemma NewString_spec_witness :
  ∃ l h', NewString ["a"; "b"] (∅ : heap) = Some (Some l, h') ∧ Len (Some l) h' = 2.
Proof.
  destruct (NewString_spec (∅ : heap) ["a"; "b"])
    as (l & h' & Hnew & _ & _ & _ & _ & _ & Hlen & _).
  exists l, h'. split; [done | ]. apply Hlen.
  apply NoDup_cons. split; [ | apply NoDup_singleton].
  by intros ?%list_elem_of_singleton.
Defined.

(** X5.  [Insert] on a set that is not nil adds exactly the items to the
    table of the receiver, in place, and returns the receiver; no other table
    changes.  On a nil set it returns the set when there is no item and
    panics when there is one. *)
Theorem Insert_spec (h : heap) (items : list string) :
  Insert None [] h = Some (None, h) ∧
  (items ≠ [] → Insert None items h = None) ∧
  (∀ l, valid h (Some l) →
     ∃ h', Insert (Some l) items h = Some (Some l, h') ∧
           contents h' (Some l) = contents h (Some l) ∪ list_to_set items ∧
           HasAll (Some l) items h' = true ∧
           (∀ s, s ≠ Some l → contents h' s = contents h s) ∧
           (∀ r, r ≠ l → h' !! r = h !! r)).
Proof.
  split; [done | ]. split.
  - by destruct items.
  - intros l Hv. eexists. split; [by apply Insert_valid | ].
    split; [apply contents_insert_eq | ].
    split; [ | split].
    + apply HasAll_forall. intros item Hin. rewrite contents_insert_eq.
      apply elem_of_union_r. by apply elem_of_list_to_set.
    + intros s Hs. by apply contents_insert_ne.
    + intros r Hr. by apply lookup_insert_ne.
Qed.

Lemma Insert_spec_witness :
  Insert None ["a"] ({[ 1%positive := {[ "b" ]} ]} : heap) = None ∧
  ∃ h', Insert (Some 1%positive) ["a"; "b"; "a"] ({[ 1%positive := {[ "b" ]} ]} : heap)
        = Some (Some 1%positive, h') ∧
        HasAll (Some 1%positive) ["a"; "b"; "a"] h' = true.
Proof.
  destruct (Insert_spec ({[ 1%positive := {[ "b" ]} ]} : heap) ["a"]) as (_ & Hnil & _).
  destruct (Insert_spec ({[ 1%positive := {[ "b" ]} ]} : heap) ["a"; "b"; "a"])
    as (_ & _ & Hins).
  split; [by apply Hnil | ].
  destruct (Hins 1%positive) as (h' & Hh' & _ & Hall & _).
  - unfold valid. apply elem_of_dom. by eexists.
  - by exists h'.
Defined.
End SetsOps.

Section SetsDelete.
Import Sets.

Lemma Delete_nil (items : list string) (h : heap) : Delete None items h = Some (None, h).
Proof. induction items as [ | item items IH]; [done | exact IH]. Qed.

Lemma Delete_insert (l : positive) (items : list string) : ∀ (acc : gset string) (h0 : heap),
  Delete (Some l) items (<[l := acc]> h0)
  = Some (Some l, <[l := acc ∖ list_to_set items]> h0).
Proof.
  induction items as [ | item items IH]; intros acc h0.
  - simpl. by rewrite difference_empty_L.
  - cbn [Delete remove]. rewrite contents_insert_eq, insert_insert_eq, IH.
    do 3 f_equal. rewrite list_to_set_cons. set_solver.
Qed.

Lemma Delete_valid (h : heap) (l : positive) (items : list string) :
  valid h (Some l) →
  Delete (Some l) items h
  = Some (Some l, <[l := contents h (Some l) ∖ list_to_set items]> h).
Proof.
  intros Hv%valid_lookup.
  rewrite <- (insert_id h l _ Hv) at 1. apply Delete_insert.
Qed.

(** X6.  [Delete] never panics and returns the receiver.  On a nil set it
    does nothing.  On any other set it removes exactly the items from the
    table of the receiver, in place: none of them is a member afterwards,
    the membership of anything else is as before, no other table changes,
    and when none of the items was a member the heap is left as it was. *)
Theorem Delete_spec (h : heap) (items : list string) :
  Delete None items h = Some (None, h) ∧
  (∀ l, valid h (Some l) →
     ∃ h', Delete (Some l) items h = Some (Some l, h') ∧
           contents h' (Some l) = contents h (Some l) ∖ list_to_set items ∧
           HasAny (Some l) items h' = false ∧
           (∀ item, item ∉ items → Has (Some l) item h' = Has (Some l) item h) ∧
           (∀ r, r ≠ l → h' !! r = h !! r) ∧
           ((∀ item, item ∈ items → item ∉ contents h (Some l)) → h' = h)).
Proof.
  split; [apply Delete_nil | ].
  intros l Hv. eexists. split; [by apply Delete_valid | ].
  split; [apply contents_insert_eq | ].
  split; [ | split; [ | split]].
  - apply not_true_iff_false. intros [item [Hin Hmem]]%HasAny_exists.
    rewrite contents_insert_eq in Hmem.
    apply elem_of_difference in Hmem as [_ Hnot].
    apply Hnot. by apply elem_of_list_to_set.
  - intros item Hnot. unfold Has. rewrite contents_insert_eq.
    apply bool_decide_ext. rewrite elem_of_difference, elem_of_list_to_set. tauto.
  - intros r Hr. by apply lookup_insert_ne.
  - intros Habsent. apply insert_id. rewrite (valid_lookup h l Hv). f_equal.
    apply set_eq. intros item.
    rewrite elem_of_difference, elem_of_list_to_set.
    split; [ | tauto]. intros Hmem. split; [done | ]. intros Hin. by apply (Habsent item).
Qed.

Lemma Delete_spec_witness :
  ∃ h', Delete (Some 1%positive) ["a"; "c"] ({[ 1%positive := {[ "a"; "b" ]} ]} : heap)
        = Some (Some 1%positive, h') ∧
        HasAny (Some 1%positive) ["a"; "c"] h' = false.
Proof.
  destruct (Delete_spec ({[ 1%positive := {[ "a"; "b" ]} ]} : heap) ["a"; "c"])
    as (_ & Hdel).
  destruct (Hdel 1%positive) as (h' & Hh' & _ & Hany & _).
  - unfold valid. apply elem_of_dom. by eexists.
  - by exists h'.
Defined.

(** X7.  Inserting items none of which is a member and deleting them again
    restores the heap. *)
Theorem Insert_Delete_roundtrip (h : heap) (l : positive) (items : list string) :
  valid h (Some l) →
  (∀ item, item ∈ items → item ∉ contents h (Some l)) →
  ∃ h1, Insert (Some l) items h = Some (Some l, h1) ∧
        HasAll (Some l) items h1 = true ∧
        Delete (Some l) items h1 = Some (Some l, h).
Proof.
  intros Hv Hnew. eexists. split; [by apply Insert_valid | ]. split.
  - apply HasAll_forall. intros item Hin. rewrite contents_insert_eq.
    apply elem_of_union_r. by apply elem_of_list_to_set.
  - rewrite Delete_insert. do 2 f_equal.
    apply insert_id. rewrite (valid_lookup h l Hv). f_equal.
    apply set_eq. intros item.
    rewrite elem_of_difference, elem_of_union, elem_of_list_to_set.
    split; [ | intros [[Hmem | Hin] Hnot]; done].
    intros Hmem. split; [by left | ].
    intros Hin. by apply (Hnew item).
Qed.

Lemma Insert_Delete_roundtrip_witness :
  ∃ h1, Insert (Some 1%positive) ["a"] ({[ 1%positive := {[ "b" ]} ]} : heap)
        = Some (Some 1%positive, h1) ∧
        Delete (Some 1%positive) ["a"] h1
        = Some (Some 1%positive, ({[ 1%positive := {[ "b" ]} ]} : heap)).
Proof.
  destruct (Insert_Delete_roundtrip ({[ 1%positive := {[ "b" ]} ]} : heap) 1%positive ["a"])
    as (h1 & Hins & _ & Hdel).
  - unfold valid. apply elem_of_dom. by eexists.
  - intros item ->%list_elem_of_singleton. simpl. rewrite lookup_singleton_eq. simpl.
    by intros ?%elem_of_singleton.
  - by exists h1.
Defined.

(** X8.  [HasAll] answers true exactly when every item is a member, so it
    is true when there is no item; [HasAny] answers true exactly when some
    item is a member, so it is false when there is no item; on one or more
    items [HasAll] implies [HasAny]. *)
Theorem HasAll_HasAny_spec (s : String) (items : list string) (h : heap) :
  (HasAll s items h = true ↔ ∀ item, item ∈ items → Has s item h = true) ∧
  (HasAny s items h = true ↔ ∃ item, item ∈ items ∧ Has s item h = true) ∧
  HasAll s [] h = true ∧
  HasAny s [] h = false ∧
  (items ≠ [] → HasAll s items h = true → HasAny s items h = true).
Proof.
  split; [ | split; [ | split; [done | split; [done | ]]]].
  - rewrite HasAll_forall. unfold Has.
    split; intros Hall item Hin; specialize (Hall item Hin).
    + by apply bool_decide_eq_true.
    + by apply bool_decide_eq_true in Hall.
  - rewrite HasAny_exists. unfold Has.
    split; intros [item [Hin Hmem]]; exists item; (split; [done | ]).
    + by apply bool_decide_eq_true.
    + by apply bool_decide_eq_true in Hmem.
  - intros Hne Hall. rewrite HasAll_forall in Hall. apply HasAny_exists.
    destruct items as [ | item items]; [done | ].
    exists item. split; [by left | ]. apply Hall. by left.
Qed.

Lemma HasAll_HasAny_spec_witness :
  HasAny (Some 1%positive) ["a"; "b"] ({[ 1%positive := {[ "a"; "b" ]} ]} : heap) = true.
Proof.
  destruct (HasAll_HasAny_spec (Some 1%positive) ["a"; "b"]
              ({[ 1%positive := {[ "a"; "b" ]} ]} : heap)) as (_ & _ & _ & _ & Himp).
  apply Himp; [done | reflexivity].
Defined.
End SetsDelete.

Section SetsAlgebra.
Import Sets.
Variable rangeKeys : gset string → list string.
Hypothesis rangeKeys_perm : ∀ s, rangeKeys s ≡ₚ elements s.

Lemma rangeKeys_elem_of (t : gset string) (k : string) : k ∈ rangeKeys t ↔ k ∈ t.
Proof. by rewrite rangeKeys_perm, elem_of_elements. Qed.

Lemma list_to_set_rangeKeys (t : gset string) : list_to_set (rangeKeys t) = t.
Proof.
  apply set_eq. intros k. by rewrite elem_of_list_to_set, rangeKeys_elem_of.
Qed.

(** The loop of [Difference], for a result table that is not [s2]. *)
Lemma Difference_range (h0 : heap) (l : positive) (s2 : String) (keys : list string) :
  s2 ≠ Some l →
  ∀ acc : gset string,
    (fix range (keys : list string) (h : heap) {struct keys} :=
       match keys with
       | [] => Some (Some l, h)
       | key :: keys =>
           if negb (Has s2 key h) then
             match Insert (Some l) [key] h with
             | None => None
             | Some (_, h) => range keys h
             end
           else range keys h
       end) keys (<[l := acc]> h0)
    = Some (Some l,
            <[l := acc ∪ list_to_set (filter (λ k, k ∉ contents h0 s2) keys)]> h0).
Proof.
  intros Hne. induction keys as [ | key keys IH]; intros acc.
  - simpl. by rewrite (right_id_L ∅ (∪)).
  - cbn [Has]. unfold Has at 1. rewrite contents_insert_ne by done.
    case_bool_decide as Hin; cbn [negb].
    + rewrite filter_cons_False by tauto. apply IH.
    + rewrite filter_cons_True by done.
      cbn [Insert assign]. rewrite contents_insert_eq, insert_insert_eq, IH.
      do 3 f_equal. rewrite list_to_set_cons. set_solver.
Qed.

Lemma Difference_result (h : heap) (s s2 : String) :
  valid h s → valid h s2 →
  Difference rangeKeys s s2 h
  = Some (Some (fresh (dom h)),
          <[fresh (dom h) := contents h s ∖ contents h s2]> h).
Proof.
  intros Hs Hs2. apply valid_fresh in Hs, Hs2.
  unfold Difference. rewrite NewString_empty, Difference_range by done.
  rewrite contents_insert_ne by done. do 3 f_equal.
  apply set_eq. intros k.
  rewrite elem_of_union, elem_of_list_to_set, list_elem_of_filter, rangeKeys_elem_of,
    elem_of_difference.
  split; [intros [?%elem_of_empty | [? ?]]; done | intros [? ?]; by right].
Qed.

Lemma insertEach_insert (l : positive) (keys : list string) : ∀ (acc : gset string) (h0 : heap),
  insertEach (Some l) keys (<[l := acc]> h0)
  = Some (tt, <[l := acc ∪ list_to_set keys]> h0).
Proof.
  induction keys as [ | key keys IH]; intros acc h0.
  - simpl. by rewrite (right_id_L ∅ (∪)).
  - cbn [insertEach Insert assign]. rewrite contents_insert_eq, insert_insert_eq, IH.
    do 3 f_equal. rewrite list_to_set_cons. set_solver.
Qed.

Lemma Union_result (h : heap) (s s2 : String) :
  valid h s → valid h s2 →
  Union rangeKeys s s2 h
  = Some (Some (fresh (dom h)),
          <[fresh (dom h) := contents h s ∪ contents h s2]> h).
Proof.
  intros Hs Hs2. apply valid_fresh in Hs, Hs2.
  unfold Union. rewrite NewString_empty, insertEach_insert.
  rewrite insertEach_insert. rewrite !contents_insert_ne by done.
  by rewrite !list_to_set_rangeKeys, (left_id_L ∅ (∪)).
Qed.

(** X9.  On operands valid in the heap, [s.Difference(s2)] returns a table
    allocated by the call that holds the members of [s] that are not
    members of [s2]; every table the heap held, the operands among them, is
    as it was. *)
Theorem Difference_spec (h : heap) (s s2 : String) :
  valid h s → valid h s2 →
  ∃ l h',
    Difference rangeKeys s s2 h = Some (Some l, h') ∧
    (l ∉ dom h) ∧
    (∀ r, r ∈ dom h → h' !! r = h !! r) ∧
    contents h' s = contents h s ∧
    contents h' s2 = contents h s2 ∧
    contents h' (Some l) = contents h s ∖ contents h s2 ∧
    (∀ item, Has (Some l) item h' = Has s item h && negb (Has s2 item h)).
Proof.
  intros Hs Hs2. eexists _, _. split; [by apply Difference_result | ].
  assert (Hfresh : fresh (dom h) ∉ dom h) by apply is_fresh.
  split; [done | ]. split; [intros r Hr; apply lookup_insert_ne; by intros <- | ].
  split; [apply contents_insert_ne; by apply valid_fresh | ].
  split; [apply contents_insert_ne; by apply valid_fresh | ].
  split; [apply contents_insert_eq | ].
  intros item. unfold Has. rewrite contents_insert_eq.
  apply eq_true_iff_eq.
  rewrite andb_true_iff, negb_true_iff, !bool_decide_eq_true, bool_decide_eq_false.
  apply elem_of_difference.
Qed.

(** X10.  On operands valid in the heap, [s.Union(s2)] returns a table
    allocated by the call that holds the members of either operand; every
    table the heap held is as it was; and [s2.Union(s)], evaluated next, is
    [Equal] to it. *)
Theorem Union_spec (h : heap) (s s2 : String) :
  valid h s → valid h s2 →
  ∃ l h1 l' h2,
    Union rangeKeys s s2 h = Some (Some l, h1) ∧
    (l ∉ dom h) ∧
    (∀ r, r ∈ dom h → h1 !! r = h !! r) ∧
    contents h1 s = contents h s ∧
    contents h1 s2 = contents h s2 ∧
    contents h1 (Some l) = contents h s ∪ contents h s2 ∧
    IsSuperset rangeKeys (Some l) s h1 = true ∧
    IsSuperset rangeKeys (Some l) s2 h1 = true ∧
    Union rangeKeys s2 s h1 = Some (Some l', h2) ∧
    Equal rangeKeys (Some l) (Some l') h2 = true.
Proof.
  intros Hs Hs2.
  set (l := fresh (dom h)).
  set (h1 := <[l := contents h s ∪ contents h s2]> h).
  assert (Hl : l ∉ dom h) by apply is_fresh.
  assert (Hc : contents h1 s = contents h s)
    by (apply contents_insert_ne; by apply valid_fresh).
  assert (Hc2 : contents h1 s2 = contents h s2)
    by (apply contents_insert_ne; by apply valid_fresh).
  assert (Hcl : contents h1 (Some l) = contents h s ∪ contents h s2)
    by apply contents_insert_eq.
  exists l, h1, (fresh (dom h1)), (<[fresh (dom h1) := contents h1 s2 ∪ contents h1 s]> h1).
  split; [by apply Union_result | ]. split; [done | ].
  split; [intros r Hr; apply lookup_insert_ne; by intros <- | ].
  split; [done | ]. split; [done | ]. split; [done | ].
  split; [apply IsSuperset_subseteq; [done | ]; rewrite Hcl, Hc; set_solver | ].
  split; [apply IsSuperset_subseteq; [done | ]; rewrite Hcl, Hc2; set_solver | ].
  split; [apply Union_result; by apply valid_insert | ].
  apply Equal_contents; [done | ].
  rewrite contents_insert_eq, contents_insert_ne.
  - rewrite Hcl, Hc, Hc2. set_solver.
  - apply valid_fresh, valid_insert_eq.
Qed.
End SetsAlgebra.

Lemma Difference_spec_witness :
  ∃ l h',
    Sets.Difference elements (Some 1%positive) (Some 2%positive)
      {[ 1%positive := {[ "a"; "b" ]}; 2%positive := {[ "b"; "c" ]} ]}
    = Some (Some l, h') ∧
    Sets.contents h' (Some l)
    = Sets.contents {[ 1%positive := {[ "a"; "b" ]}; 2%positive := {[ "b"; "c" ]} ]}
        (Some 1%positive)
      ∖ Sets.contents {[ 1%positive := {[ "a"; "b" ]}; 2%positive := {[ "b"; "c" ]} ]}
          (Some 2%positive).
Proof.
  destruct (Difference_spec elements (λ s, reflexivity (elements s))
              {[ 1%positive := {[ "a"; "b" ]}; 2%positive := {[ "b"; "c" ]} ]}
              (Some 1%positive) (Some 2%positive))
    as (l & h' & Hd & _ & _ & _ & _ & Hc & _).
  - unfold valid. apply elem_of_dom. by eexists.
  - unfold valid. apply elem_of_dom. by eexists.
  - by exists l, h'.
Defined.

Lemma Union_spec_witness :
  ∃ l h1 l' h2,
    Sets.Union elements (Some 1%positive) (Some 2%positive)
      {[ 1%positive := {[ "a"; "b" ]}; 2%positive := {[ "b"; "c" ]} ]}
    = Some (Some l, h1) ∧
    Sets.Union elements (Some 2%positive) (Some 1%positive) h1 = Some (Some l', h2) ∧
    Sets.Equal elements (Some l) (Some l') h2 = true.
Proof.
  destruct (Union_spec elements (λ s, reflexivity (elements s))
              {[ 1%positive := {[ "a"; "b" ]}; 2%positive := {[ "b"; "c" ]} ]}
              (Some 1%positive) (Some 2%positive))
    as (l & h1 & l' & h2 & Hu & _ & _ & _ & _ & _ & _ & _ & Hu' & Heq).
  - unfold valid. apply elem_of_dom. by eexists.
  - unfold valid. apply elem_of_dom. by eexists.
  - by exists l, h1, l', h2.
Defined.

Section SetsOrder.
Import Sets.
Variable rangeKeys : gset string → list string.
Hypothesis rangeKeys_perm : ∀ s, rangeKeys s ≡ₚ elements s.

(** X11.  [IsSuperset] answers true exactly when every member of the
    argument is a member of the receiver, and [Equal] exactly when the two
    sets have the same members, however the loop walks the map; so [Equal]
    is reflexive, symmetric and transitive, and a nil set equals an empty
    one. *)
Theorem Equal_spec (h : heap) (s s2 s3 : String) :
  (IsSuperset rangeKeys s s2 h = true ↔ contents h s2 ⊆ contents h s) ∧
  (Equal rangeKeys s s2 h = true ↔ contents h s = contents h s2) ∧
  Equal rangeKeys s s h = true ∧
  Equal rangeKeys s s2 h = Equal rangeKeys s2 s h ∧
  (Equal rangeKeys s s2 h = true → Equal rangeKeys s2 s3 h = true →
   Equal rangeKeys s s3 h = true) ∧
  (contents h s = ∅ → Equal rangeKeys None s h = true).
Proof.
  split; [by apply IsSuperset_subseteq | ].
  split; [by apply Equal_contents | ].
  split; [by apply Equal_contents | ].
  split; [ | split].
  - apply eq_true_iff_eq. rewrite !Equal_contents by done. split; by intros ->.
  - rewrite !Equal_contents by done. by intros -> ->.
  - intros Hempty. apply Equal_contents; [done | ]. by rewrite Hempty.
Qed.

Lemma append_each (keys : list string) : ∀ res,
  foldl (fun res key => res ++ [key]) res keys = res ++ keys.
Proof.
  induction keys as [ | key keys IH]; intros res; simpl.
  - by rewrite app_nil_r.
  - by rewrite IH, <- app_assoc.
Qed.

Lemma lessString_le (a b : string) : lessString b a = false ↔ String.le a b.
Proof.
  unfold lessString, String.le, String.ltb, String.leb.
  rewrite (String.compare_antisym a b).
  destruct (String.compare b a); simpl; split; (done || tauto).
Qed.

Lemma lessString_lt (a b : string) : lessString a b = true ↔ String.le a b ∧ a ≠ b.
Proof.
  unfold lessString, String.le, String.ltb, String.leb.
  destruct (String.compare a b) eqn:Hc; simpl.
  - apply String.compare_eq_iff in Hc as ->. split; [done | by intros [_ ?]].
  - split; [ | done]. intros _. split; [done | ]. intros ->.
    pose proof (String.compare_antisym b b) as Ha. rewrite Hc in Ha. done.
  - split; [done | by intros [? _]].
Qed.

Lemma Sorted_weaken {A : Type} (R R' : relation A) (l : list A) :
  (∀ a b, R a b → R' a b) → Sorted R l → Sorted R' l.
Proof.
  intros Himp. induction 1 as [ | a l Hs IH Hhd]; constructor; [done | ].
  destruct Hhd; constructor; auto.
Qed.

(** In an ascending arrangement of distinct strings each string is less
    than the next. *)
Lemma Sorted_le_NoDup_lt (l : list string) :
  Sorted String.le l → NoDup l → Sorted (λ a b, lessString a b = true) l.
Proof.
  induction 1 as [ | a l Hs IH Hhd]; intros Hnd; constructor.
  - apply IH. by apply NoDup_cons in Hnd as [_ ?].
  - destruct Hhd as [ | b l Hab]; constructor.
    apply lessString_lt. split; [done | ]. intros ->.
    apply NoDup_cons in Hnd as [Hnot _]. apply Hnot. by left.
Qed.

Section ListSpec.
Variable sort_Sort : (string → string → bool) → list string → list string.
Hypothesis sort_Sort_perm : ∀ l, sort_Sort lessString l ≡ₚ l.
Hypothesis sort_Sort_sorted :
  ∀ l, Sorted (λ a b, lessString b a = false) (sort_Sort lessString l).

(** X12.  [List()] holds each member of the set once, each string less than
    the next, and is the only ascending arrangement of the members: the
    result does not depend on the order in which the map is walked, nor on
    how [sort.Sort] sorts.  [UnsortedList()] holds each member once. *)
Theorem List_spec (h : heap) (s : String) :
  (∀ item, item ∈ List rangeKeys sort_Sort s h ↔ item ∈ contents h s) ∧
  NoDup (List rangeKeys sort_Sort s h) ∧
  length (List rangeKeys sort_Sort s h) = Len s h ∧
  Sorted (λ a b, lessString a b = true) (List rangeKeys sort_Sort s h) ∧
  (∀ l, l ≡ₚ elements (contents h s) → Sorted String.le l →
        List rangeKeys sort_Sort s h = l) ∧
  UnsortedList rangeKeys s h ≡ₚ List rangeKeys sort_Sort s h ∧
  NoDup (UnsortedList rangeKeys s h).
Proof.
  assert (Hperm : List rangeKeys sort_Sort s h ≡ₚ elements (contents h s)).
  { unfold List. by rewrite sort_Sort_perm, append_each, rangeKeys_perm. }
  assert (Hsorted : Sorted String.le (List rangeKeys sort_Sort s h)).
  { unfold List. eapply Sorted_weaken; [ | apply sort_Sort_sorted].
    intros a b. apply lessString_le. }
  assert (Hnd : NoDup (List rangeKeys sort_Sort s h)).
  { rewrite Hperm. apply NoDup_elements. }
  split; [intros item; by rewrite Hperm, elem_of_elements | ].
  split; [done | ].
  split; [by rewrite Hperm | ].
  split; [by apply Sorted_le_NoDup_lt | ].
  split; [ | split].
  - intros l Hl Hls. apply (Sorted_unique String.le); [done | done | ].
    by rewrite Hperm, Hl.
  - unfold UnsortedList. by rewrite Hperm, append_each, rangeKeys_perm.
  - unfold UnsortedList. rewrite append_each, rangeKeys_perm. apply NoDup_elements.
Qed.

(** X15.  [NewString(items...).List()] is the items in ascending order
    without repetition. *)
Theorem NewString_List (h : heap) (items : list string) :
  ∃ l h',
    NewString items h = Some (Some l, h') ∧
    (∀ item, item ∈ List rangeKeys sort_Sort (Some l) h' ↔ item ∈ items) ∧
    Sorted (λ a b, lessString a b = true) (List rangeKeys sort_Sort (Some l) h') ∧
    List rangeKeys sort_Sort (Some l) h' = merge_sort String.le (remove_dups items).
Proof.
  eexists _, _. split; [apply NewString_result | ].
  assert (Hperm : List rangeKeys sort_Sort (Some (fresh (dom h)))
                    (<[fresh (dom h) := list_to_set items]> h)
                  ≡ₚ elements (list_to_set items : gset string)).
  { unfold List. by rewrite sort_Sort_perm, append_each, rangeKeys_perm, contents_insert_eq. }
  assert (Hsorted : Sorted String.le
                      (List rangeKeys sort_Sort (Some (fresh (dom h)))
                         (<[fresh (dom h) := list_to_set items]> h))).
  { unfold List. eapply Sorted_weaken; [ | apply sort_Sort_sorted].
    intros a b. apply lessString_le. }
  split; [ | split].
  - intros item. by rewrite Hperm, elem_of_elements, elem_of_list_to_set.
  - apply Sorted_le_NoDup_lt; [done | ]. rewrite Hperm. apply NoDup_elements.
  - apply (Sorted_unique String.le); [done | apply Sorted_merge_sort; apply _ | ].
    rewrite Hperm, merge_sort_Permutation.
    apply NoDup_Permutation; [apply NoDup_elements | apply NoDup_remove_dups | ].
    intros item. by rewrite elem_of_elements, elem_of_list_to_set, elem_of_remove_dups.
Qed.
End ListSpec.
End SetsOrder.

Lemma merge_sort_lessString (l : list string) :
  Sorted (λ a b, Sets.lessString b a = false) (merge_sort String.le l).
Proof.
  eapply Sorted_weaken; [ | apply Sorted_merge_sort; apply _].
  intros a b. apply lessString_le.
Qed.

Lemma Equal_spec_witness :
  Sets.Equal elements (Some 1%positive) (Some 3%positive)
    {[ 1%positive := {[ "a" ]}; 2%positive := {[ "a" ]}; 3%positive := {[ "a" ]} ]}
  = true.
Proof.
  destruct (Equal_spec elements (λ s, reflexivity (elements s))
              {[ 1%positive := {[ "a" ]}; 2%positive := {[ "a" ]}; 3%positive := {[ "a" ]} ]}
              (Some 1%positive) (Some 2%positive) (Some 3%positive))
    as (_ & _ & _ & _ & Htrans & _).
  apply Htrans; reflexivity.
Defined.

Lemma List_spec_witness :
  Sets.List elements (λ _, merge_sort String.le) (Some 1%positive)
    {[ 1%positive := {[ "b"; "a"; "c" ]} ]}
  = ["a"; "b"; "c"].
Proof.
  destruct (List_spec elements (λ s, reflexivity (elements s))
              (λ _, merge_sort String.le)
              (merge_sort_Permutation String.le) merge_sort_lessString
              {[ 1%positive := {[ "b"; "a"; "c" ]} ]} (Some 1%positive))
    as (_ & _ & _ & _ & Huniq & _).
  apply Huniq.
  - apply NoDup_Permutation.
    + by apply (bool_decide_unpack _).
    + apply NoDup_elements.
    + intros x. rewrite elem_of_elements. simpl. rewrite lookup_singleton_eq. simpl.
      rewrite !elem_of_cons, elem_of_nil, !elem_of_union, !elem_of_singleton. tauto.
  - repeat constructor.
Defined.

Lemma NewString_List_witness :
  ∃ l h',
    Sets.NewString ["b"; "a"; "b"] (∅ : gmap positive (gset string)) = Some (Some l, h') ∧
    Sets.List elements (λ _, merge_sort String.le) (Some l) h'
    = merge_sort String.le (remove_dups ["b"; "a"; "b"]).
Proof.
  destruct (NewString_List elements (λ s, reflexivity (elements s))
              (λ _, merge_sort String.le)
              (merge_sort_Permutation String.le) merge_sort_lessString
              (∅ : gmap positive (gset string)) ["b"; "a"; "b"])
    as (l & h' & Hnew & _ & _ & Hlist).
  by exists l, h'.
Defined.

Section SetsPop.
Import Sets.
Variable rangeKeys : gset string → list string.
Hypothesis rangeKeys_perm : ∀ s, rangeKeys s ≡ₚ elements s.

Lemma rangeKeys_nil (t : gset string) : rangeKeys t = [] ↔ t = ∅.
Proof.
  split.
  - intros Hnil. apply set_eq. intros k.
    rewrite <- (rangeKeys_elem_of rangeKeys rangeKeys_perm), Hnil.
    split; [by intros ?%elem_of_nil | by intros ?%elem_of_empty].
  - intros ->. apply Permutation_nil_r. by rewrite rangeKeys_perm, elements_empty.
Qed.

(** X13.  [PopAny] on a set without members, nil or not, returns the empty
    string with the flag false and leaves the heap as it was.  On a set with
    members it returns one of them with the flag true and removes it from
    the table of the receiver, whose length drops by one; no other table
    changes. *)
Theorem PopAny_spec (h : heap) (s : String) :
  valid h s →
  (contents h s = ∅ → PopAny rangeKeys s h = Some (("", false), h)) ∧
  (contents h s ≠ ∅ →
     ∃ key h',
       PopAny rangeKeys s h = Some ((key, true), h') ∧
       key ∈ contents h s ∧
       contents h' s = contents h s ∖ {[key]} ∧
       Has s key h' = false ∧
       S (Len s h') = Len s h ∧
       (∀ s', s' ≠ s → contents h' s' = contents h s')).
Proof.
  intros Hv. unfold PopAny. split.
  - intros Hempty. apply rangeKeys_nil in Hempty. by rewrite Hempty.
  - intros Hne. destruct (rangeKeys (contents h s)) as [ | key keys] eqn:Hkeys.
    { by apply rangeKeys_nil in Hkeys. }
    assert (Hkey : key ∈ contents h s).
    { apply (rangeKeys_elem_of rangeKeys rangeKeys_perm). rewrite Hkeys. by left. }
    destruct s as [l | ]; [ | by apply elem_of_empty in Hkey].
    rewrite Delete_valid by done.
    eexists _, _. split; [done | ]. split; [done | ].
    assert (Hc : contents (<[l := contents h (Some l) ∖ list_to_set [key]]> h) (Some l)
                 = contents h (Some l) ∖ {[key]}).
    { rewrite contents_insert_eq. f_equal. set_solver. }
    split; [done | ]. split; [ | split].
    + unfold Has. rewrite Hc. apply bool_decide_eq_false. set_solver.
    + unfold Len. rewrite Hc, size_difference by set_solver.
      rewrite size_singleton.
      assert (size (contents h (Some l)) ≠ 0); [ | lia].
      intros Hz%size_empty_iff. apply Hne. by apply leibniz_equiv.
    + intros s' Hs'. by apply contents_insert_ne.
Qed.

(** X14.  The members of [s] that are not in [s2] together with those that
    are give back [s]: on operands valid in the heap,
    [s.Difference(s2).Union(s.Intersection(s2))] is [Equal] to [s], and [s]
    is as it was. *)
Theorem Difference_Intersection_Union (h : heap) (s s2 : String) :
  valid h s → valid h s2 →
  ∃ d h1 i h2 u h3,
    Difference rangeKeys s s2 h = Some (d, h1) ∧
    Intersection rangeKeys s s2 h1 = Some (i, h2) ∧
    Union rangeKeys d i h2 = Some (u, h3) ∧
    Equal rangeKeys u s h3 = true ∧
    contents h3 s = contents h s ∧
    contents h3 s2 = contents h s2.
Proof.
  intros Hs Hs2.
  set (h1 := <[fresh (dom h) := contents h s ∖ contents h s2]> h).
  set (h2 := <[fresh (dom h1) := contents h1 s ∩ contents h1 s2]> h1).
  set (h3 := <[fresh (dom h2) := contents h2 (Some (fresh (dom h)))
                                  ∪ contents h2 (Some (fresh (dom h1)))]> h2).
  assert (Hs1 : valid h1 s) by (by apply valid_insert).
  assert (Hs21 : valid h1 s2) by (by apply valid_insert).
  assert (Hd1 : valid h1 (Some (fresh (dom h)))) by apply valid_insert_eq.
  assert (Hs_2 : valid h2 s) by (by apply valid_insert).
  assert (Hs2_2 : valid h2 s2) by (by apply valid_insert).
  assert (Hd2 : valid h2 (Some (fresh (dom h)))) by (by apply valid_insert).
  assert (Hi2 : valid h2 (Some (fresh (dom h1)))) by apply valid_insert_eq.
  assert (Hc1 : ∀ s', valid h s' → contents h1 s' = contents h s').
  { intros s' Hs'. apply contents_insert_ne. by apply valid_fresh. }
  assert (Hc2 : ∀ s', valid h1 s' → contents h2 s' = contents h1 s').
  { intros s' Hs'. apply contents_insert_ne. by apply valid_fresh. }
  assert (Hc3 : ∀ s', valid h2 s' → contents h3 s' = contents h2 s').
  { intros s' Hs'. apply contents_insert_ne. by apply valid_fresh. }
  exists (Some (fresh (dom h))), h1, (Some (fresh (dom h1))), h2,
    (Some (fresh (dom h2))), h3.
  split; [by apply (Difference_result rangeKeys rangeKeys_perm) | ].
  split; [by apply (Intersection_result rangeKeys rangeKeys_perm) | ].
  split; [by apply (Union_result rangeKeys rangeKeys_perm) | ].
  split; [ | split].
  - apply Equal_contents; [done | ].
    rewrite (Hc3 s), (Hc2 s), (Hc1 s) by done.
    unfold h3. rewrite contents_insert_eq.
    rewrite (Hc2 (Some (fresh (dom h)))) by done.
    unfold h2 at 1. rewrite contents_insert_eq.
    unfold h1 at 1. rewrite contents_insert_eq.
    rewrite (Hc1 s), (Hc1 s2) by done.
    apply set_eq. intros k.
    rewrite elem_of_union, elem_of_difference, elem_of_intersection.
    destruct (decide (k ∈ contents h s2)); tauto.
  - by rewrite (Hc3 s), (Hc2 s), (Hc1 s).
  - by rewrite (Hc3 s2), (Hc2 s2), (Hc1 s2).
Qed.
End SetsPop.

Lemma PopAny_spec_witness :
  ∃ key h',
    Sets.PopAny elements (Some 1%positive) {[ 1%positive := {[ "a" ]} ]}
    = Some ((key, true), h') ∧
    Sets.Has (Some 1%positive) key h' = false.
Proof.
  destruct (PopAny_spec elements (λ s, reflexivity (elements s))
              {[ 1%positive := {[ "a" ]} ]} (Some 1%positive)) as [_ Hpop].
  - unfold valid. apply elem_of_dom. by eexists.
  - destruct Hpop as (key & h' & Hp & _ & _ & Hhas & _).
    + simpl. rewrite lookup_singleton_eq. simpl.
      intros Hempty. assert (Ha : "a" ∈ ({[ "a" ]} : gset string)) by by apply elem_of_singleton.
      rewrite Hempty in Ha. by apply elem_of_empty in Ha.
    + by exists key, h'.
Defined.

Lemma Difference_Intersection_Union_witness :
  ∃ d h1 i h2 u h3,
    Sets.Difference elements (Some 1%positive) (Some 2%positive)
      {[ 1%positive := {[ "a"; "b" ]}; 2%positive := {[ "b"; "c" ]} ]} = Some (d, h1) ∧
    Sets.Intersection elements (Some 1%positive) (Some 2%positive) h1 = Some (i, h2) ∧
    Sets.Union elements d i h2 = Some (u, h3) ∧
    Sets.Equal elements u (Some 1%positive) h3 = true.
Proof.
  destruct (Difference_Intersection_Union elements (λ s, reflexivity (elements s))
              {[ 1%positive := {[ "a"; "b" ]}; 2%positive := {[ "b"; "c" ]} ]}
              (Some 1%positive) (Some 2%positive))
    as (d & h1 & i & h2 & u & h3 & Hd & Hi & Hu & Heq & _).
  - unfold valid. apply elem_of_dom. by eexists.
  - unfold valid. apply elem_of_dom. by eexists.
  - by exists d, h1, i, h2, u, h3.
Defined.

(** ** Error: panics and repeated texts *)

Lemma collect_never_matches err st b st' : collect err st = Some (b, st') → b = false.
Proof.
  unfold collect. destruct st as [seenerrs result].
  destruct (Error err) as [msg | ]; [ | done].
  case_bool_decide; by intros [= <- _].
Qed.

Lemma runOver_collect_nil (l : list error) : ∀ st,
  ErrNil ∈ l → runOver collect l st = None.
Proof.
  induction l as [ | e l IH]; intros st Hin; [by apply elem_of_nil in Hin | ].
  cbn [runOver]. destruct (collect e st) as [[b st'] | ] eqn:Hc; [ | done].
  apply collect_never_matches in Hc as Hb. subst b.
  apply elem_of_cons in Hin as [<- | Hin]; [ | by apply IH].
  unfold collect in Hc. destruct st. simpl in Hc. done.
Qed.

Lemma visited_nil (agg : list error) : ErrNil ∈ agg → ErrNil ∈ visited agg.
Proof.
  intros Hin. apply visited_reaches. by apply reaches_plain.
Qed.

Lemma runOver_collect_total (l : list error) :
  Forall (λ e, is_Some (Error e)) l →
  ∀ st, ∃ st', runOver collect l st = Some (false, st').
Proof.
  induction 1 as [ | e l [msg He] _ IH]; intros [seenerrs result]; [by eexists | ].
  cbn [runOver]. unfold collect at 1. rewrite He.
  case_bool_decide; apply IH.
Qed.

Lemma nilFree_Error err :
  nilFree err = true →
  is_Some (Error err) ∧ Forall (λ e, is_Some (Error e)) (visitedErr err).
Proof.
  induction err as [ | id msg | k errs IH] using error_ind; [done | | ].
  - intros _. split; [by eexists | ]. repeat constructor. by eexists.
  - simpl nilFree. intros Hall.
    assert (Helems : Forall (λ e, is_Some (Error e)
                                  ∧ Forall (λ v, is_Some (Error v)) (visitedErr e)) errs).
    { apply Forall_forall. intros e He. rewrite Forall_forall in IH. apply IH; [done | ].
      rewrite forallb_forall in Hall. by apply Hall, list_elem_of_In. }
    destruct k as [ | id msg].
    + assert (Hvis : Forall (λ v, is_Some (Error v)) (visitedErr (ErrAgg aggregate errs))).
      { simpl. clear IH Hall. induction Helems as [ | e errs [_ He] _ IHerrs]; simpl;
          [constructor | by apply Forall_app]. }
      split; [ | done].
      destruct errs as [ | a [ | b rest]].
      * by eexists.
      * simpl. by apply Forall_cons in Helems as [[? _] _].
      * rewrite Error_aggregate_unfold, visit_runOver.
        change (visitedErr (ErrAgg aggregate (a :: b :: rest)))
          with (visited (a :: b :: rest)) in Hvis.
        destruct (runOver_collect_total _ Hvis (∅, "")) as [[seenerrs result] ->].
        case_bool_decide; by eexists.
    + split; [by eexists | ]. simpl.
      eapply Forall_impl; [exact Helems | ]. by intros e [? _].
Qed.

(** X16.  [Error()] panics on an aggregate that holds a nil, which is what
    [NewAggregate] guards against by dropping nil entries; it returns a text
    for every structure in which no nil occurs, and so for whatever
    [NewAggregate] makes of a list whose entries are nil or free of nil. *)
Theorem Error_panics_on_nil_only :
  (∀ agg, ErrNil ∈ agg → Error (ErrAgg aggregate agg) = None) ∧
  (∀ err, nilFree err = true → is_Some (Error err)) ∧
  (∀ L, Forall (λ e, e = ErrNil ∨ nilFree e = true) L → nonNil L ≠ [] →
        is_Some (Error (asError (NewAggregate L)))).
Proof.
  split; [ | split].
  - intros agg Hin. destruct agg as [ | a [ | b rest]].
    + by apply elem_of_nil in Hin.
    + by apply list_elem_of_singleton in Hin as <-.
    + rewrite Error_aggregate_unfold, visit_runOver.
      by rewrite runOver_collect_nil by (by apply visited_nil).
  - intros err Hfree. by apply nilFree_Error.
  - intros L HL Hne. rewrite NewAggregate_nonNil.
    destruct (nonNil L) as [ | a l] eqn:Hl; [done | ].
    apply nilFree_Error. change (forallb nilFree (a :: l) = true).
    rewrite <- Hl. apply forallb_forall.
    intros e He%list_elem_of_In. unfold nonNil in He.
    apply list_elem_of_filter in He as [Hnn He].
    rewrite Forall_forall in HL. destruct (HL e He) as [-> | ?]; [ | done].
    simpl in Hnn. tauto.
Qed.

Lemma Error_panics_on_nil_only_witness :
  Error (ErrAgg aggregate [ErrPlain 1 "a"; ErrNil]) = None ∧
  is_Some (Error (asError (NewAggregate [ErrPlain 1 "a"; ErrNil]))).
Proof.
  destruct Error_panics_on_nil_only as (Hnil & _ & Hnew).
  split.
  - apply Hnil. right. left.
  - apply Hnew; [ | done].
    constructor; [by right | ]. constructor; [by left | constructor].
Defined.

Lemma keepFirst_replicate (n : nat) (m : string) : keepFirst (replicate (S n) m) = [m].
Proof.
  induction n as [ | n IH]; [done | ].
  change (keepFirst (replicate (S (S n)) m))
    with (m :: filter (λ x, x ≠ m) (keepFirst (replicate (S n) m))).
  rewrite IH. by rewrite filter_cons_False by (intros H; by apply H).
Qed.

Lemma Error_aggregate_rendering (agg : list error) (msgs : list string) :
  2 ≤ length agg →
  Forall2 (λ e m, Error e = Some m) (visited agg) msgs →
  Error (ErrAgg aggregate agg) = Some (rendering msgs).
Proof.
  intros Hlen Hmsgs.
  destruct agg as [ | a [ | b rest]]; simpl in Hlen; [lia | lia | ].
  rewrite Error_aggregate_unfold, visit_runOver.
  destruct (runOver_collect _ _ Hmsgs [] (NoDup_nil_2)) as [Hrun Hnd].
  change (list_to_set [], String.concat ", " []) with (∅ : gset string, "") in Hrun.
  rewrite Hrun, size_list_to_set by done.
  unfold rendering. rewrite foldl_seeMsg_keepFirst. simpl.
  rewrite filter_not_in_nil. by case_bool_decide.
Qed.

(** X17.  An aggregate of two or more elements all of whose visited errors
    carry one and the same text renders as that text alone, without
    brackets, however many they are; [Errors()] still holds them all. *)
Theorem Error_same_text (agg : list error) (m : string) :
  2 ≤ length agg →
  visited agg ≠ [] →
  Forall (λ e, Error e = Some m) (visited agg) →
  Error (ErrAgg aggregate agg) = Some m ∧
  Errors (Agg aggregate agg) = Some agg.
Proof.
  intros Hlen Hne Hall. split; [ | done].
  rewrite (Error_aggregate_rendering agg (replicate (length (visited agg)) m)); [ | done | ].
  - destruct (visited agg) as [ | v l]; [done | ].
    unfold rendering. change (length (v :: l)) with (S (length l)).
    by rewrite keepFirst_replicate.
  - clear Hne. induction Hall as [ | e l He _ IH]; simpl; constructor; done.
Qed.

Lemma Error_same_text_witness :
  Error (asError (NewAggregate [ErrPlain 1 "disk full"; ErrPlain 2 "disk full"]))
  = Some "disk full".
Proof.
  apply (Error_same_text [ErrPlain 1 "disk full"; ErrPlain 2 "disk full"] "disk full").
  - simpl. lia.
  - done.
  - by repeat constructor.
Defined.

(** ** Flatten and the queries *)

Lemma visited_isLeaf (l : list error) : Forall isLeaf l → visited l = l.
Proof.
  unfold visited. induction 1 as [ | e l [Hn Ha] _ IH]; [done | ].
  simpl. rewrite IH. by destruct e.
Qed.

Lemma isLeaf_messages (l : list error) :
  Forall isLeaf l → Forall2 (λ e m, Error e = Some m) l (plainMsg <$> l).
Proof.
  induction 1 as [ | e l [Hn Ha] _ IH]; [constructor | ].
  rewrite fmap_cons. constructor; [ | done]. by destruct e.
Qed.

Lemma canonical_two_leaves (a b : error) (rest : list error) :
  canonical a = true → canonical b = true → 2 ≤ length (leaves (a :: b :: rest)).
Proof.
  intros Ha%canonical_leaves Hb%canonical_leaves.
  unfold leaves. simpl. rewrite !length_app.
  destruct (leavesErr a); [done | ]. destruct (leavesErr b); [done | ]. simpl. lia.
Qed.

Lemma Flatten_canonical (errs : list error) :
  canonical (ErrAgg aggregate errs) = true →
  Flatten (Agg aggregate errs) = Agg aggregate (leaves errs).
Proof.
  intros Hc%canonical_leaves. rewrite Flatten_leaves, NewAggregate_leaves.
  change (leaves errs ≠ []) in Hc. by destruct (leaves errs).
Qed.

Lemma Error_Flatten_canonical err :
  canonical err = true →
  ∀ errs, err = ErrAgg aggregate errs →
    Error (asError (Flatten (Agg aggregate errs))) = Error err.
Proof.
  induction err as [ | id msg | k errs' IH] using error_ind; [done | done | ].
  intros Hc errs [= -> ->].
  rewrite Flatten_canonical by done. simpl asError.
  simpl in Hc. apply andb_true_iff in Hc as [_ Hall].
  destruct errs as [ | a [ | b rest]].
  - done.
  - (* one element: the text is the element's *)
    apply Forall_cons in IH as [IHa _].
    simpl in Hall. apply andb_true_iff in Hall as [Ha _].
    change (Error (ErrAgg aggregate [a])) with (Error a).
    unfold leaves. simpl. rewrite app_nil_r.
    destruct a as [ | id msg | [ | id msg] nested]; [done | done | | done].
    rewrite <- (IHa Ha nested eq_refl), Flatten_canonical by done. done.
  - (* two or more: the visited errors are the leaves on both sides *)
    simpl in Hall. apply andb_true_iff in Hall as [Ha Hall].
    apply andb_true_iff in Hall as [Hb Hrest].
    assert (Hcan : forallb canonical (a :: b :: rest) = true).
    { simpl. by rewrite Ha, Hb, Hrest. }
    pose proof (leaves_isLeaf (a :: b :: rest)) as Hleaf.
    rewrite (Error_aggregate_rendering (a :: b :: rest)
               (plainMsg <$> leaves (a :: b :: rest))).
    + apply Error_aggregate_rendering; [by apply canonical_two_leaves | ].
      rewrite visited_isLeaf by done. by apply isLeaf_messages.
    + simpl. lia.
    + rewrite visited_canonical by done. by apply isLeaf_messages.
Qed.

Section FlattenQueries.
Variable errors_Is : error → error → bool.

(** X18.  For an aggregate built by the package, [Flatten] returns the
    aggregate of its leaves, and the flattened aggregate renders the same
    text and answers [Is] alike for every target. *)
Theorem Flatten_preserves_Error_Is (errs : list error) (target : error) :
  canonical (ErrAgg aggregate errs) = true →
  Flatten (Agg aggregate errs) = Agg aggregate (leaves errs) ∧
  Error (asError (Flatten (Agg aggregate errs))) = Error (ErrAgg aggregate errs) ∧
  Is errors_Is (leaves errs) target = Is errors_Is errs target.
Proof.
  intros Hc. split; [by apply Flatten_canonical | ].
  split; [by apply (Error_Flatten_canonical (ErrAgg aggregate errs)) | ].
  rewrite !Is_existsb.
  rewrite (visited_isLeaf (leaves errs)) by apply leaves_isLeaf.
  rewrite (visited_canonical errs); [done | ].
  simpl in Hc. by apply andb_true_iff in Hc as [_ ?].
Qed.
End FlattenQueries.

Lemma Flatten_preserves_Error_Is_witness :
  Error (asError (Flatten (Agg aggregate
           [ErrAgg aggregate [ErrPlain 1 "a"; ErrPlain 2 "b"]; ErrPlain 3 "a"])))
  = Error (ErrAgg aggregate
             [ErrAgg aggregate [ErrPlain 1 "a"; ErrPlain 2 "b"]; ErrPlain 3 "a"]).
Proof.
  apply (Flatten_preserves_Error_Is (λ _ _, false)
           [ErrAgg aggregate [ErrPlain 1 "a"; ErrPlain 2 "b"]; ErrPlain 3 "a"] ErrNil).
  reflexivity.
Defined.

(** ** FilterOut in several passes *)

Lemma matchesError_app err fns fns' :
  matchesError err (fns ++ fns') = matchesError err fns || matchesError err fns'.
Proof.
  induction fns as [ | fn fns IH]; [done | ].
  simpl. by destruct (fn err).
Qed.

Lemma nonNil_map_nonNil (f : error → error) (l : list error) :
  f ErrNil = ErrNil → nonNil (map f (nonNil l)) = nonNil (map f l).
Proof.
  intros Hf. unfold nonNil. induction l as [ | e l IH]; [done | ].
  destruct e.
  - rewrite filter_cons_False by (simpl; tauto). simpl. rewrite Hf.
    by rewrite (filter_cons_False _ ErrNil) by (simpl; tauto).
  - rewrite filter_cons_True by (simpl; tauto). simpl.
    destruct (isNil (f (ErrPlain id msg))) eqn:Hn.
    + rewrite !(filter_cons_False _ (f _)) by (rewrite Hn; simpl; tauto). exact IH.
    + rewrite !(filter_cons_True _ (f _)) by (rewrite Hn; simpl; tauto). by rewrite IH.
  - rewrite filter_cons_True by (simpl; tauto). simpl.
    destruct (isNil (f (ErrAgg k errs))) eqn:Hn.
    + rewrite !(filter_cons_False _ (f _)) by (rewrite Hn; simpl; tauto). exact IH.
    + rewrite !(filter_cons_True _ (f _)) by (rewrite Hn; simpl; tauto). by rewrite IH.
Qed.

Lemma FilterOut_two_passes fns fns' err :
  FilterOut (FilterOut err fns) fns' = FilterOut err (fns ++ fns').
Proof.
  induction err as [ | id msg | k errs IH] using error_ind; [done | | ].
  - simpl. rewrite matchesError_app.
    destruct (matchesError (ErrPlain id msg) fns); [done | ]. done.
  - rewrite !FilterOut_aggregate, !filterErrors_nonNil.
    assert (Hmap : map (λ e, FilterOut e (fns ++ fns')) errs
                   = map (λ e, FilterOut e fns') (map (λ e, FilterOut e fns) errs)).
    { induction IH as [ | e errs He _ IHerrs]; [done | ]. simpl. by rewrite He, IHerrs. }
    rewrite Hmap, <- (nonNil_map_nonNil (λ e, FilterOut e fns')) by done.
    rewrite (NewAggregate_nonNil (nonNil _)), nonNil_idemp.
    destruct (nonNil (map (λ e, FilterOut e fns) errs)) as [ | a l]; [done | ].
    simpl asError. by rewrite FilterOut_aggregate, filterErrors_nonNil.
Qed.

(** X19.  Filtering in two passes is filtering once with the matchers of
    both: the order of the passes does not matter, and filtering again with
    the same matchers changes nothing. *)
Theorem FilterOut_passes (fns fns' : list Matcher) (err : error) :
  FilterOut (FilterOut err fns) fns' = FilterOut err (fns ++ fns') ∧
  FilterOut (FilterOut err fns) fns' = FilterOut (FilterOut err fns') fns ∧
  FilterOut (FilterOut err fns) fns = FilterOut err fns.
Proof.
  split; [apply FilterOut_two_passes | split].
  - rewrite !FilterOut_two_passes. apply FilterOut_plain_ext.
    intros id msg. rewrite !matchesError_app. apply orb_comm.
  - rewrite FilterOut_two_passes. apply FilterOut_plain_ext.
    intros id msg. rewrite matchesError_app. apply orb_diag.
Qed.

(** ** applyOptionRules *)

Section ApplyOptionRulesSpec.
Variable progressMessage : string.

(** X20.  [applyOptionRules] returns the error of [Complete()] when that is
    not nil, and logs nothing.  Otherwise it returns what [NewAggregate]
    makes of the errors of [Validate()]: nil exactly when they are all nil.
    The configuration is logged only when [Validate()] returns no entry at
    all, the options can be printed and the application is not silent; a
    list of nil entries gives nil without the log. *)
Theorem applyOptionRules_spec (options : CliOptions) (silence : bool) :
  (∀ err, Complete options = Some err → err ≠ ErrNil →
          applyOptionRules progressMessage options silence = (err, [])) ∧
  (completes options →
     fst (applyOptionRules progressMessage options silence)
     = asError (NewAggregate (Validate options)) ∧
     (snd (applyOptionRules progressMessage options silence) ≠ [] ↔
        Validate options = [] ∧ is_Some (String_ options) ∧ silence = false)) ∧
  (fst (applyOptionRules progressMessage options silence) = ErrNil ↔
     completes options ∧ Forall (λ e, e = ErrNil) (Validate options)) ∧
  (completes options → Validate options ≠ [] →
     Forall (λ e, e = ErrNil) (Validate options) →
     applyOptionRules progressMessage options silence = (ErrNil, [])).
Proof.
  destruct options as [complete validate text]. unfold completes. simpl.
  assert (Hagg : asError (NewAggregate validate) = ErrNil
                 ↔ Forall (λ e, e = ErrNil) validate).
  { rewrite NewAggregate_nonNil, nonNil_all_nil.
    destruct (nonNil validate); [done | ]. simpl. split; done. }
  split; [ | split; [ | split]].
  - intros err -> Hne. unfold applyOptionRules. simpl. by destruct err.
  - intros Hc. unfold applyOptionRules. simpl.
    assert (Hnone : match complete with
                    | Some err => if negb (isNil err) then Some err else None
                    | None => None
                    end = None) by (by destruct Hc as [-> | ->]).
    rewrite Hnone. destruct validate as [ | e validate]; simpl.
    + destruct text as [t | ]; [destruct silence | ]; simpl.
      * split; [done | ]. split; [done | by intros (_ & _ & ?)].
      * split; [done | ]. split; [ | done].
        intros _. split; [done | ]. split; [by eexists | done].
      * split; [done | ]. split; [done | by intros (_ & [? ?] & _)].
    + split; [done | ]. split; [done | by intros [? _]].
  - unfold applyOptionRules. simpl.
    destruct complete as [[ | id msg | k errs] | ]; simpl.
    + destruct validate as [ | e validate]; simpl.
      * split; [intros _; split; [by right | constructor] | ].
        intros _. by destruct text as [t | ]; [destruct silence | ].
      * rewrite Hagg. split; [intros ?; split; [by right | done] | by intros [_ ?]].
    + split; [done | ]. by intros [[? | ?] _].
    + split; [done | ]. by intros [[? | ?] _].
    + destruct validate as [ | e validate]; simpl.
      * split; [intros _; split; [by left | constructor] | ].
        intros _. by destruct text as [t | ]; [destruct silence | ].
      * rewrite Hagg. split; [intros ?; split; [by left | done] | by intros [_ ?]].
  - intros Hc Hne Hall. unfold applyOptionRules. simpl.
    assert (Hnone : match complete with
                    | Some err => if negb (isNil err) then Some err else None
                    | None => None
                    end = None) by (by destruct Hc as [-> | ->]).
    rewrite Hnone. destruct validate as [ | e validate]; [done | ].
    apply Hagg in Hall. simpl. by rewrite Hall.
Qed.
End ApplyOptionRulesSpec.

Lemma applyOptionRules_spec_witness :
  applyOptionRules "==>" (Options None [ErrNil] (Some "config")) false = (ErrNil, []) ∧
  applyOptionRules "==>" (Options (Some (ErrPlain 1 "incomplete")) [] None) false
  = (ErrPlain 1 "incomplete", []).
Proof.
  split.
  - apply (applyOptionRules_spec "==>" (Options None [ErrNil] (Some "config")) false).
    + by left.
    + done.
    + by repeat constructor.
  - by apply (applyOptionRules_spec "==>"
                (Options (Some (ErrPlain 1 "incomplete")) [] None) false).
Defined.

(** ** funcname *)

Lemma append_cons (a : ascii) (s t : string) : String a s +:+ t = String a (s +:+ t).
Proof. reflexivity. Qed.

Lemma append_nil_l (t : string) : "" +:+ t = t.
Proof. reflexivity. Qed.

Lemma byteIn_append (c : ascii) (s t : string) :
  byteIn c (s +:+ t) = byteIn c s || byteIn c t.
Proof.
  induction s as [ | a s IH]; [done | ].
  rewrite append_cons. simpl. rewrite IH. by destruct (bool_decide (a = c)).
Qed.

Lemma strings_Index_bounds (s : string) (c : ascii) :
  (-1 ≤ strings_Index s c)%Z ∧
  (byteIn c s = false → strings_Index s c = (-1)%Z).
Proof.
  induction s as [ | a s [IH1 IH2]]; simpl; [done | ].
  case_bool_decide as Ha; simpl; [split; [lia | done] | ].
  case_bool_decide; split; try lia.
  intros Hn. specialize (IH2 Hn). lia.
Qed.

Lemma strings_LastIndex_bounds (s : string) (c : ascii) :
  (-1 ≤ strings_LastIndex s c)%Z ∧
  (byteIn c s = false ↔ strings_LastIndex s c = (-1)%Z).
Proof.
  induction s as [ | a s [IH1 IH2]]; simpl; [done | ].
  case_bool_decide as Hi.
  - split; [lia | ]. split; [ | lia].
    intros [_ Hn]%orb_false_iff. apply IH2 in Hn. lia.
  - assert (Hs : byteIn c s = false) by (apply IH2; lia).
    rewrite Hs, orb_false_r.
    case_bool_decide as Ha; simpl; (split; [lia | ]); split; (done || lia).
Qed.

(** What follows the first, or the last, occurrence of a byte. *)
Lemma strings_Index_split (p q : string) (c : ascii) :
  byteIn c p = false →
  strings_Index (p +:+ String c q) c = Z.of_nat (String.length p).
Proof.
  induction p as [ | a p IH].
  - intros _. change (strings_Index (String c q) c = 0%Z).
    simpl. by rewrite bool_decide_eq_true_2.
  - simpl byteIn. intros [Ha Hp]%orb_false_iff. rewrite append_cons.
    simpl strings_Index. rewrite Ha, (IH Hp).
    rewrite bool_decide_eq_false_2 by lia. simpl String.length. lia.
Qed.

Lemma strings_LastIndex_split (p q : string) (c : ascii) :
  byteIn c q = false →
  strings_LastIndex (p +:+ String c q) c = Z.of_nat (String.length p).
Proof.
  intros Hq. induction p as [ | a p IH].
  - change (strings_LastIndex (String c q) c = 0%Z). simpl.
    apply (strings_LastIndex_bounds q c) in Hq. rewrite Hq.
    rewrite bool_decide_eq_false_2 by lia. by rewrite bool_decide_eq_true_2.
  - rewrite append_cons. simpl strings_LastIndex. rewrite IH.
    rewrite bool_decide_eq_true_2 by lia. simpl String.length. lia.
Qed.

Lemma sliceFrom_append (p q : string) : sliceFrom (String.length p) (p +:+ q) = q.
Proof. induction p as [ | a p IH]; [by destruct q | exact IH]. Qed.

Lemma sliceFrom_after (p q : string) (c : ascii) :
  sliceFrom (Z.to_nat (Z.of_nat (String.length p) + 1)) (p +:+ String c q) = q.
Proof.
  replace (Z.to_nat (Z.of_nat (String.length p) + 1))
    with (String.length (p +:+ String c "")).
  - rewrite <- (sliceFrom_append (p +:+ String c "") q) at 2.
    f_equal. by rewrite string_app_assoc.
  - induction p as [ | a p IH]; [done | ]. rewrite append_cons. simpl String.length.
    rewrite IH. lia.
Qed.

Lemma sliceFrom_suffix (n : nat) (s : string) : ∃ p, s = p +:+ sliceFrom n s.
Proof.
  revert s. induction n as [ | n IH]; intros s; [by exists "" | ].
  destruct s as [ | a s]; [by exists "" | ].
  destruct (IH s) as [p Hp]. exists (String a p). simpl. by rewrite append_cons, <- Hp.
Qed.

Lemma sliceFrom_after_last (s : string) (c : ascii) :
  byteIn c (sliceFrom (Z.to_nat (strings_LastIndex s c + 1)) s) = false.
Proof.
  induction s as [ | a s IH]; [done | ].
  destruct (strings_LastIndex_bounds s c) as [Hlow Hiff]. simpl.
  case_bool_decide as Hi.
  - replace (Z.to_nat (strings_LastIndex s c + 1 + 1))
      with (S (Z.to_nat (strings_LastIndex s c + 1))) by lia.
    exact IH.
  - assert (Hs : byteIn c s = false) by (apply Hiff; lia).
    case_bool_decide as Ha; simpl; [done | ].
    rewrite Hs. by rewrite bool_decide_eq_false_2.
Qed.

(** X21.  [funcname] takes what follows the last "/" of the name, and of
    that what follows its first ".": of [dir/pkg.fn] it returns [fn], of
    [pkg.fn] too, and a name without "/" and "." comes back as it is.  What
    it returns is always an end of the name, and holds no "/". *)
Theorem funcname_spec :
  (∀ dir pkg fn,
     byteIn "/" pkg = false → byteIn "." pkg = false → byteIn "/" fn = false →
     funcname (dir +:+ "/" +:+ pkg +:+ "." +:+ fn) = fn) ∧
  (∀ pkg fn,
     byteIn "/" pkg = false → byteIn "." pkg = false → byteIn "/" fn = false →
     funcname (pkg +:+ "." +:+ fn) = fn) ∧
  (∀ name, byteIn "/" name = false → byteIn "." name = false → funcname name = name) ∧
  (∀ name, byteIn "/" (funcname name) = false) ∧
  (∀ name, ∃ p, name = p +:+ funcname name).
Proof.
  split; [ | split; [ | split; [ | split]]].
  - intros dir pkg fn Hpkg Hdot Hfn. unfold funcname.
    change (dir +:+ "/" +:+ pkg +:+ "." +:+ fn)
      with (dir +:+ String "/" (pkg +:+ String "." fn)).
    rewrite strings_LastIndex_split
      by (rewrite byteIn_append; simpl; by rewrite Hpkg, Hfn).
    rewrite sliceFrom_after, strings_Index_split by done.
    apply sliceFrom_after.
  - intros pkg fn Hpkg Hdot Hfn. unfold funcname.
    change (pkg +:+ "." +:+ fn) with (pkg +:+ String "." fn).
    assert (Hno : byteIn "/" (pkg +:+ String "." fn) = false)
      by (rewrite byteIn_append; simpl; by rewrite Hpkg, Hfn).
    apply (strings_LastIndex_bounds _ "/") in Hno. rewrite Hno. simpl sliceFrom.
    rewrite strings_Index_split by done. apply sliceFrom_after.
  - intros name Hslash Hdot. unfold funcname.
    apply (strings_LastIndex_bounds _ "/") in Hslash. rewrite Hslash. simpl sliceFrom.
    apply (strings_Index_bounds name ".") in Hdot. by rewrite Hdot.
  - intros name. unfold funcname.
    pose proof (sliceFrom_after_last name "/") as Hno.
    destruct (sliceFrom_suffix
                (Z.to_nat (strings_Index
                   (sliceFrom (Z.to_nat (strings_LastIndex name "/" + 1)) name) "." + 1))
                (sliceFrom (Z.to_nat (strings_LastIndex name "/" + 1)) name)) as [p Hp].
    rewrite Hp, byteIn_append in Hno. by apply orb_false_iff in Hno as [_ ?].
  - intros name. unfold funcname.
    destruct (sliceFrom_suffix (Z.to_nat (strings_LastIndex name "/" + 1)) name) as [p Hp].
    destruct (sliceFrom_suffix
                (Z.to_nat (strings_Index
                   (sliceFrom (Z.to_nat (strings_LastIndex name "/" + 1)) name) "." + 1))
                (sliceFrom (Z.to_nat (strings_LastIndex name "/" + 1)) name)) as [q Hq].
    exists (p +:+ q). rewrite string_app_assoc. by rewrite <- Hq, <- Hp.
Qed.

Lemma funcname_spec_witness :
  funcname ("github.com/gzwillyy/components" +:+ "/" +:+ "errors" +:+ "." +:+ "(*stack).Format")
  = "(*stack).Format".
Proof.
  destruct funcname_spec as (Hpath & _).
  apply Hpath; reflexivity.
Defined.

(** ** WordSepNormalizeFunc *)

Lemma strings_ReplaceAll_gone (s : string) (old new : ascii) :
  old ≠ new → byteIn old (strings_ReplaceAll s old new) = false.
Proof.
  intros Hne. induction s as [ | a s IH]; [done | ].
  simpl. rewrite IH, orb_false_r.
  destruct (bool_decide (a = old)) eqn:Ha.
  - apply bool_decide_eq_false. congruence.
  - exact Ha.
Qed.

Lemma strings_ReplaceAll_absent (s : string) (old new : ascii) :
  byteIn old s = false → strings_ReplaceAll s old new = s.
Proof.
  induction s as [ | a s IH]; [done | ].
  simpl. intros [Ha Hs]%orb_false_iff. by rewrite Ha, IH.
Qed.

Lemma strings_Index_present (s : string) (c : ascii) :
  byteIn c s = true → (0 ≤ strings_Index s c)%Z.
Proof.
  induction s as [ | a s IH]; [done | ].
  simpl. destruct (bool_decide (a = c)); simpl; [lia | ].
  intros Hin. specialize (IH Hin). rewrite bool_decide_eq_false_2 by lia. lia.
Qed.

Lemma strings_Contains_byteIn (s : string) (c : ascii) :
  strings_Contains s c = byteIn c s.
Proof.
  unfold strings_Contains. destruct (byteIn c s) eqn:Hin.
  - apply bool_decide_eq_true_2. by apply strings_Index_present.
  - apply (strings_Index_bounds s c) in Hin. rewrite Hin. done.
Qed.

Lemma WordSepNormalizeFunc_replace (name : string) :
  WordSepNormalizeFunc name = strings_ReplaceAll name "_" "-".
Proof.
  unfold WordSepNormalizeFunc. rewrite strings_Contains_byteIn.
  destruct (byteIn "_" name) eqn:Hin; [done | ].
  by rewrite strings_ReplaceAll_absent.
Qed.

(** X22.  [WordSepNormalizeFunc] returns the name with every "_" turned
    into "-": the result holds no "_" and is as long as the name, a name
    without "_" comes back as it is, normalising twice is normalising once,
    and two names that differ only in "_" against "-" get the same
    normalised name. *)
Theorem WordSepNormalizeFunc_spec (name : string) :
  byteIn "_" (WordSepNormalizeFunc name) = false ∧
  String.length (WordSepNormalizeFunc name) = String.length name ∧
  (byteIn "_" name = false → WordSepNormalizeFunc name = name) ∧
  WordSepNormalizeFunc (WordSepNormalizeFunc name) = WordSepNormalizeFunc name ∧
  (∀ other,
     strings_ReplaceAll name "_" "-" = strings_ReplaceAll other "_" "-" →
     WordSepNormalizeFunc name = WordSepNormalizeFunc other).
Proof.
  assert (Hgone : byteIn "_" (WordSepNormalizeFunc name) = false).
  { rewrite WordSepNormalizeFunc_replace. by apply strings_ReplaceAll_gone. }
  split; [done | split; [ | split; [ | split]]].
  - rewrite WordSepNormalizeFunc_replace. clear Hgone.
    induction name as [ | a name IH]; [done | ]. simpl. by rewrite IH.
  - intros Hno. rewrite WordSepNormalizeFunc_replace. by apply strings_ReplaceAll_absent.
  - rewrite (WordSepNormalizeFunc_replace (WordSepNormalizeFunc name)).
    by apply strings_ReplaceAll_absent.
  - intros other Heq. by rewrite !WordSepNormalizeFunc_replace.
Qed.

Lemma WordSepNormalizeFunc_spec_witness :
  WordSepNormalizeFunc "log_level" = WordSepNormalizeFunc "log-level".
Proof.
  destruct (WordSepNormalizeFunc_spec "log_level") as (_ & _ & _ & _ & Hsame).
  apply Hsame. reflexivity.
Defined.

(** ** FilterOut and Is *)

Section FilterOutIs.
Variable errors_Is : error → error → bool.

(** X23.  When the matchers match every error that [errors.Is] matches
    against [target], as the matcher [func(e) { return errors.Is(e, target) }]
    does, what [FilterOut] leaves of an Aggregate is nil or an aggregate
    whose [Is(target)] is false. *)
Theorem FilterOut_then_Is (fns : list Matcher) (target : error) (k : impl)
    (errs : list error) :
  (∀ e, errors_Is e target = true → matchesError e fns = true) →
  FilterOut (ErrAgg k errs) fns = ErrNil ∨
  ∃ rest, FilterOut (ErrAgg k errs) fns = ErrAgg aggregate rest ∧
          Is errors_Is rest target = Some false.
Proof.
  intros Hmatch.
  destruct (FilterOut_canonical fns (ErrAgg k errs)) as [Hnil | Hc]; [by left | right].
  pose proof (leavesErr_FilterOut fns (ErrAgg k errs)) as Hleaves.
  rewrite FilterOut_aggregate in *.
  destruct (NewAggregate (filterErrors errs fns)) as [ | k' rest] eqn:Hnew; [done | ].
  rewrite NewAggregate_nonNil in Hnew.
  assert (k' = aggregate) as -> by (destruct (nonNil _); congruence).
  exists rest. split; [done | ].
  simpl in Hc. apply andb_true_iff in Hc as [_ Hall].
  rewrite Is_existsb, (visited_canonical rest Hall). f_equal.
  change (leaves rest = filter (λ x, ¬ matchesError x fns) (leaves errs)) in Hleaves.
  rewrite Hleaves. apply not_true_iff_false.
  intros [e [[Hun _]%list_elem_of_In%list_elem_of_filter He]]%existsb_exists.
  apply Hun. rewrite (Hmatch e He). done.
Qed.
End FilterOutIs.

Lemma FilterOut_then_Is_witness :
  FilterOut (ErrAgg aggregate [ErrPlain 1 "EOF"; ErrPlain 2 "disk full"])
    [λ e, bool_decide (plainMsg e = "EOF")] = ErrNil ∨
  ∃ rest,
    FilterOut (ErrAgg aggregate [ErrPlain 1 "EOF"; ErrPlain 2 "disk full"])
      [λ e, bool_decide (plainMsg e = "EOF")] = ErrAgg aggregate rest ∧
    Is (λ e t, bool_decide (plainMsg e = plainMsg t)) rest (ErrPlain 1 "EOF")
    = Some false.
Proof.
  apply (FilterOut_then_Is (λ e t, bool_decide (plainMsg e = plainMsg t))
           [λ e, bool_decide (plainMsg e = "EOF")] (ErrPlain 1 "EOF")).
  intros e He. simpl in *. by rewrite He.
Defined.

(** ** Error below another implementation of Aggregate *)

Lemma rendering_two (t tc : string) :
  t ≠ tc → rendering [t; tc] = "[" +:+ (t +:+ ", " +:+ tc) +:+ "]".
Proof.
  intros Hne. unfold rendering. simpl.
  rewrite filter_cons_True by (simpl; congruence).
  by rewrite !filter_nil.
Qed.

(** X1.  The traversal of [Error] hands over the elements of an Aggregate of
    another implementation without entering them.  An aggregate that starts
    with such an Aggregate and has further elements renders the messages of
    that Aggregate's elements as they are, followed by those of the visited
    errors of the rest; the foreign Aggregate's own message is not used.  So
    a nested aggregate of the package below a foreign Aggregate contributes
    its own text, brackets included: followed by a plain error of another
    text [tc], an inner aggregate of text [t] gives "[t, tc]". *)
Theorem Error_custom_not_entered :
  (∀ id msg nested rest msgs,
     rest ≠ [] →
     Forall2 (λ e m, Error e = Some m) (nested ++ visited rest) msgs →
     Error (ErrAgg aggregate (ErrAgg (custom id msg) nested :: rest))
     = Some (rendering msgs)) ∧
  (∀ id msg inner t idc tc,
     Error (ErrAgg aggregate inner) = Some t →
     t ≠ tc →
     Error (ErrAgg aggregate [ErrAgg (custom id msg) [ErrAgg aggregate inner];
                              ErrPlain idc tc])
     = Some ("[" +:+ (t +:+ ", " +:+ tc) +:+ "]")).
Proof.
  split.
  - intros id msg nested rest msgs Hrest Hmsgs.
    apply Error_aggregate_rendering; [ | done].
    destruct rest; [done | simpl; lia].
  - intros id msg inner t idc tc Ht Hne.
    rewrite <- (rendering_two t tc Hne).
    apply Error_aggregate_rendering; [simpl; lia | ].
    by repeat constructor.
Qed.

Lemma Error_custom_not_entered_witness :
  Error (ErrAgg aggregate
           [ErrAgg (custom 9 "outer")
              [ErrAgg aggregate [ErrPlain 1 "a"; ErrPlain 2 "b"]];
            ErrPlain 3 "c"])
  = Some "[[a, b], c]".
Proof.
  apply (proj2 Error_custom_not_entered 9 "outer"
           [ErrPlain 1 "a"; ErrPlain 2 "b"] "[a, b]" 3 "c"); [reflexivity | discriminate].
Defined.
